(** * Complementary centre-aligned PWM driver (src/motor/motor_pwm.c)

    A shallow embedding of the phase-output controller of the motor driver:
    the derivation of the timing limits, the duty-cycle normaliser, the
    per-phase compare/polarity programming and the shutdown paths, followed
    by the properties of the specification that hold (or fail) on them. *)

From Stdlib Require Import ZArith List Bool Lia.
From Stdlib Require Import Floats.SpecFloat.
Import ListNotations.
Local Open Scope Z_scope.

(** ** C integer types of the target (ARM Cortex-M3, arm-none-eabi) *)

Module CInt.

(** Conversion to [uint16_t]: reduction modulo 2^16. *)
Definition to_uint16 (x : Z) : Z := x mod 2 ^ 16.

(** Conversion to [unsigned int], which is also [uint_fast16_t] on the
    target: reduction modulo 2^32. *)
Definition to_uint32 (x : Z) : Z := x mod 2 ^ 32.

Definition in_uint16 (x : Z) : Prop := 0 <= x < 2 ^ 16.

End CInt.

(** ** IEEE-754 binary32 arithmetic, as used by the [float] expressions *)

Module F32.

Definition prec : Z := 24.
Definition emax : Z := 128.

(** Integer to [float] conversion (round to nearest, ties to even). *)
Definition of_Z (z : Z) : spec_float := binary_normalize prec emax z 0 false.

Definition div : spec_float -> spec_float -> spec_float := SFdiv prec emax.
Definition mul : spec_float -> spec_float -> spec_float := SFmul prec emax.

Definition ltb : spec_float -> spec_float -> bool := SFltb.
Definition geb (x y : spec_float) : bool := SFleb y x.

(** Decimal literal [n / d] with exactly representable [n] and [d]: the
    correctly rounded quotient is the value of the literal. *)
Definition literal (n d : Z) : spec_float := div (of_Z n) (of_Z d).

(** Truncation toward zero; [None] for infinities and NaN. *)
Definition truncate (f : spec_float) : option Z :=
  match f with
  | S754_zero _ => Some 0
  | S754_finite s m e =>
      let mag := if 0 <=? e then Zpos m * 2 ^ e else Zpos m / 2 ^ (- e) in
      Some (if s then - mag else mag)
  | S754_infinity _ | S754_nan => None
  end.

(** The cast [(uint16_t)f]; undefined in C when the truncated value is
    not representable. *)
Definition to_uint16 (f : spec_float) : option Z :=
  match truncate f with
  | Some z => if (0 <=? z) && (z <? 2 ^ 16) then Some z else None
  | None => None
  end.

End F32.

(** ** Build configuration

    Constants that the translation unit takes from headers outside it. *)

Record config := mkConfig {
  (** [NDEBUG]: when set, [assert] expands to nothing. *)
  NDEBUG : bool;
  (** Timer input clock in Hz ([PWM_TIMER_FREQUENCY]). *)
  STM32_TIMCLK1 : Z;
  (** ADC trigger advance, from adc.h. *)
  MOTOR_ADC_SYNC_ADVANCE_NANOSEC : Z;
  (** Width of the external duty-cycle code, from pwm.h. *)
  MOTOR_PWM_DUTY_CYCLE_RESOLUTION : Z;
  (** Largest external duty-cycle code, from pwm.h. *)
  MOTOR_PWM_DUTY_CYCLE_MAX : Z
}.

(** ** Constants of the translation unit *)

Definition PWM_MIN_PULSE_NANOSEC : Z := 300.
Definition PWM_DEAD_TIME_NANOSEC : Z := 400.
Definition PWM_TRUE_RESOLUTION : Z := 10.
Definition PWM_TOP : Z := Z.shiftl 1 PWM_TRUE_RESOLUTION - 1.
Definition PWM_HALF_TOP : Z := Z.shiftl 1 PWM_TRUE_RESOLUTION / 2.

(** Capture/compare polarity and enable bits of [TIMx->CCER] (device header
    stm32f10x.h). *)
Definition TIM_CCER_CC1E : Z := 0x0001.
Definition TIM_CCER_CC1P : Z := 0x0002.
Definition TIM_CCER_CC2E : Z := 0x0010.
Definition TIM_CCER_CC2P : Z := 0x0020.
Definition TIM_CCER_CC3E : Z := 0x0100.
Definition TIM_CCER_CC3P : Z := 0x0200.
Definition TIM_CCER_CC4E : Z := 0x1000.
Definition TIM_CCER_CC4P : Z := 0x2000.

(** ** Hardware and module state *)

(** The fields of [TIM_TypeDef] that the phase-output logic touches; every
    one is a 16-bit register. *)
Record TIM_TypeDef := mkTIM {
  CCER : Z;
  CCR1 : Z;
  CCR2 : Z;
  CCR3 : Z;
  CCR4 : Z
}.

Record state := mkState {
  TIM3 : TIM_TypeDef;
  TIM4 : TIM_TypeDef;
  _pwm_max : Z;
  _pwm_dead_time_ticks : Z;
  (** [true] when interrupts are masked. *)
  primask : bool
}.

Inductive timer := Tim3 | Tim4.
Inductive tim_reg := RegCCER | RegCCR1 | RegCCR2 | RegCCR3 | RegCCR4.

(** A pointer to a timer register, e.g. [&TIM4->CCR1]. *)
Definition reg_ptr : Type := (timer * tim_reg)%type.

Definition tim_load (r : tim_reg) (t : TIM_TypeDef) : Z :=
  match r with
  | RegCCER => CCER t
  | RegCCR1 => CCR1 t
  | RegCCR2 => CCR2 t
  | RegCCR3 => CCR3 t
  | RegCCR4 => CCR4 t
  end.

Definition tim_store (r : tim_reg) (v : Z) (t : TIM_TypeDef) : TIM_TypeDef :=
  match r with
  | RegCCER => mkTIM v (CCR1 t) (CCR2 t) (CCR3 t) (CCR4 t)
  | RegCCR1 => mkTIM (CCER t) v (CCR2 t) (CCR3 t) (CCR4 t)
  | RegCCR2 => mkTIM (CCER t) (CCR1 t) v (CCR3 t) (CCR4 t)
  | RegCCR3 => mkTIM (CCER t) (CCR1 t) (CCR2 t) v (CCR4 t)
  | RegCCR4 => mkTIM (CCER t) (CCR1 t) (CCR2 t) (CCR3 t) v
  end.

Definition load (p : reg_ptr) (s : state) : Z :=
  match fst p with
  | Tim3 => tim_load (snd p) (TIM3 s)
  | Tim4 => tim_load (snd p) (TIM4 s)
  end.

(** A store to a [volatile uint16_t] register keeps the low 16 bits. *)
Definition store (p : reg_ptr) (v : Z) (s : state) : state :=
  match fst p with
  | Tim3 => mkState (tim_store (snd p) (CInt.to_uint16 v) (TIM3 s)) (TIM4 s)
              (_pwm_max s) (_pwm_dead_time_ticks s) (primask s)
  | Tim4 => mkState (TIM3 s) (tim_store (snd p) (CInt.to_uint16 v) (TIM4 s))
              (_pwm_max s) (_pwm_dead_time_ticks s) (primask s)
  end.

Definition set_primask (b : bool) (s : state) : state :=
  mkState (TIM3 s) (TIM4 s) (_pwm_max s) (_pwm_dead_time_ticks s) b.

Definition set_pwm_max (v : Z) (s : state) : state :=
  mkState (TIM3 s) (TIM4 s) (CInt.to_uint16 v) (_pwm_dead_time_ticks s) (primask s).

Definition set_pwm_dead_time_ticks (v : Z) (s : state) : state :=
  mkState (TIM3 s) (TIM4 s) (_pwm_max s) (CInt.to_uint16 v) (primask s).

Definition TIM_reset : TIM_TypeDef := mkTIM 0 0 0 0 0.

(** Peripheral reset through [RCC->APB1RSTR]: both timers return to their
    reset values. *)
Definition reset_timers (s : state) : state :=
  mkState TIM_reset TIM_reset (_pwm_max s) (_pwm_dead_time_ticks s) (primask s).

(** ** Effects: a state, trace and fault monad *)

Inductive event :=
| EvIrqDisable
| EvIrqEnable
| EvIrqRestore (masked : bool)
| EvPeriphReset
| EvStore (p : reg_ptr) (v : Z)
| EvSetPwmMax (v : Z)
| EvSetDeadTime (v : Z).

Inductive fault :=
| AssertionFailed
| OutOfBounds
| UndefinedShift
| UndefinedCast.

Inductive outcome (A : Type) :=
| Ok (a : A) (s : state) (tr : list event)
| Err (f : fault) (s : state) (tr : list event).
Arguments Ok {A} a s tr.
Arguments Err {A} f s tr.

Definition state_of {A} (o : outcome A) : state :=
  match o with
  | Ok _ s _ => s
  | Err _ s _ => s
  end.

Definition trace_of {A} (o : outcome A) : list event :=
  match o with
  | Ok _ _ tr => tr
  | Err _ _ tr => tr
  end.

Definition M (A : Type) : Type := state -> outcome A.

Definition ret {A} (a : A) : M A := fun s => Ok a s [].

Definition bind {A B} (m : M A) (k : A -> M B) : M B :=
  fun s =>
    match m s with
    | Ok a s1 tr1 =>
        match k a s1 with
        | Ok b s2 tr2 => Ok b s2 (tr1 ++ tr2)
        | Err f s2 tr2 => Err f s2 (tr1 ++ tr2)
        end
    | Err f s1 tr1 => Err f s1 tr1
    end.

Declare Scope pwm_scope.
Delimit Scope pwm_scope with pwm.
Notation "x <- m ;; k" := (bind m (fun x => k))
  (at level 100, m at next level, right associativity) : pwm_scope.
Notation "m ;; k" := (bind m (fun _ => k))
  (at level 100, right associativity) : pwm_scope.
Local Open Scope pwm_scope.

Definition fail {A} (f : fault) : M A := fun s => Err f s [].
Definition get {A} (proj : state -> A) : M A := fun s => Ok (proj s) s [].

Definition read_reg (p : reg_ptr) : M Z := fun s => Ok (load p s) s [].
Definition write_reg (p : reg_ptr) (v : Z) : M unit :=
  fun s => Ok tt (store p v s) [EvStore p (CInt.to_uint16 v)].

(** Assignments to the module's static limits. *)
Definition write_pwm_max (v : Z) : M unit :=
  fun s => Ok tt (set_pwm_max v s) [EvSetPwmMax (CInt.to_uint16 v)].
Definition write_pwm_dead_time_ticks (v : Z) : M unit :=
  fun s => Ok tt (set_pwm_dead_time_ticks v s) [EvSetDeadTime (CInt.to_uint16 v)].

(** The peripheral reset pulse on [RCC->APB1RSTR]. *)
Definition rcc_reset_timers : M unit :=
  fun s => Ok tt (reset_timers s) [EvPeriphReset].

(** [*p |= mask] and [*p &= ~mask] on a 16-bit register. *)
Definition reg_set_bits (p : reg_ptr) (mask : Z) : M unit :=
  (v <- read_reg p ;; write_reg p (Z.lor v mask)).
Definition reg_clear_bits (p : reg_ptr) (mask : Z) : M unit :=
  (v <- read_reg p ;; write_reg p (Z.land v (Z.lnot mask))).

Definition of_option {A} (f : fault) (o : option A) : M A :=
  match o with
  | Some a => ret a
  | None => fail f
  end.

(** Array indexing with a C [int] index; outside the array the access is
    undefined. *)
Definition index {A} (tbl : list A) (i : Z) : option A :=
  if i <? 0 then None else nth_error tbl (Z.to_nat i).

Definition array_get {A} (tbl : list A) (i : Z) : M A :=
  of_option OutOfBounds (index tbl i).

(** [for (int i = lo; i < hi; i++) body(i)] *)
Fixpoint for_loop (n : nat) (i : Z) (body : Z -> M unit) : M unit :=
  match n with
  | O => ret tt
  | S n' => (body i ;; for_loop n' (i + 1) body)
  end.

Definition for_range (lo hi : Z) (body : Z -> M unit) : M unit :=
  for_loop (Z.to_nat (hi - lo)) lo body.

(** *** Interrupt control *)

(** Modelled from the spec: [irq_primask_disable] is declared outside the
    translation unit; it is the disable-all primitive of the
    interrupt-control collaborator. *)
Definition irq_primask_disable : M unit :=
  fun s => Ok tt (set_primask true s) [EvIrqDisable].

(** Modelled from the spec: [irq_primask_enable], the enable-all
    primitive. *)
Definition irq_primask_enable : M unit :=
  fun s => Ok tt (set_primask false s) [EvIrqEnable].

(** Modelled from the spec: [irq_primask_save], the save-state half of
    the pair for nested critical sections: it returns the current mask
    and masks interrupts. *)
Definition irq_primask_save : M bool :=
  fun s => Ok (primask s) (set_primask true s) [EvIrqDisable].

(** Modelled from the spec: [irq_primask_restore], the restore-state
    half: it puts back the saved mask. *)
Definition irq_primask_restore (saved : bool) : M unit :=
  fun s => Ok tt (set_primask saved s) [EvIrqRestore saved].

(** The kernel's global interrupt lock, around the clock reset. *)
Definition chSysDisable : M unit := irq_primask_disable.
Definition chSysEnable : M unit := irq_primask_enable.

(** ** PWM channel mapping *)

Definition PWM_REG_HIGH : list reg_ptr :=
  [(Tim4, RegCCR1); (Tim4, RegCCR2); (Tim4, RegCCR3)].
Definition PWM_REG_LOW : list reg_ptr :=
  [(Tim3, RegCCR2); (Tim3, RegCCR3); (Tim3, RegCCR4)].
Definition TIM4_HIGH_CCER_POL : list Z :=
  [TIM_CCER_CC1P; TIM_CCER_CC2P; TIM_CCER_CC3P].
Definition TIM3_LOW_CCER_POL : list Z :=
  [TIM_CCER_CC2P; TIM_CCER_CC3P; TIM_CCER_CC4P].

(** Modelled from the spec: [struct motor_pwm_val] is declared in pwm.h;
    the normalised duty value is an unsigned tick count, here the one
    [uint16_t] field that the translation unit reads and writes. *)
Record motor_pwm_val := mkPwmVal { normalized_duty_cycle : Z }.

(** Modelled from the spec: [enum motor_pwm_phase_manip] is declared in
    pwm.h; the four output modes are DRIVE_LOW, DRIVE_HIGH, FLOATING and
    HALF, under the enumerator names the translation unit uses. *)
Inductive motor_pwm_phase_manip :=
| MOTOR_PWM_MANIP_LOW
| MOTOR_PWM_MANIP_HIGH
| MOTOR_PWM_MANIP_FLOATING
| MOTOR_PWM_MANIP_HALF.

Definition manip_eqb (a b : motor_pwm_phase_manip) : bool :=
  match a, b with
  | MOTOR_PWM_MANIP_LOW, MOTOR_PWM_MANIP_LOW
  | MOTOR_PWM_MANIP_HIGH, MOTOR_PWM_MANIP_HIGH
  | MOTOR_PWM_MANIP_FLOATING, MOTOR_PWM_MANIP_FLOATING
  | MOTOR_PWM_MANIP_HALF, MOTOR_PWM_MANIP_HALF => true
  | _, _ => false
  end.

(** ** The driver *)

Section Driver.

Variable cfg : config.

(** [assert] of assert.h disappears under [NDEBUG]; [assert_always] never
    does. *)
Definition assert (cond : bool) : M unit :=
  if NDEBUG cfg then ret tt
  else if cond then ret tt else fail AssertionFailed.

Definition assert_always (cond : bool) : M unit :=
  if cond then ret tt else fail AssertionFailed.

Definition PWM_TIMER_FREQUENCY : Z := STM32_TIMCLK1 cfg.

(** Of [init_timers], the part that acts on the modelled registers: the
    peripheral reset, the polarity/enable word and the ADC trigger
    compare.  ARR, CR1, CCMRx and EGR are outside the phase-output
    state. *)
Definition init_timers : M unit :=
  chSysDisable ;;
  rcc_reset_timers ;;
  chSysEnable ;;
  let ccer := Z.lor (Z.lor (Z.lor TIM_CCER_CC1E TIM_CCER_CC2E) TIM_CCER_CC3E)
                TIM_CCER_CC4E in
  write_reg (Tim4, RegCCER) ccer ;;
  write_reg (Tim3, RegCCER) ccer ;;
  let adc_trigger_advance :=
    F32.div (F32.of_Z (MOTOR_ADC_SYNC_ADVANCE_NANOSEC cfg)) (F32.of_Z 1000000000) in
  let adc_trigger_advance_ticks_float :=
    F32.div adc_trigger_advance (F32.div (F32.of_Z 1) (F32.of_Z PWM_TIMER_FREQUENCY)) in
  assert_always (F32.geb adc_trigger_advance_ticks_float (F32.of_Z 0)) ;;
  assert_always (F32.ltb adc_trigger_advance_ticks_float
                   (F32.mul (F32.of_Z PWM_TOP) (F32.literal 3 10))) ;;
  ticks <- of_option UndefinedCast (F32.to_uint16 adc_trigger_advance_ticks_float) ;;
  write_reg (Tim4, RegCCR4) (PWM_HALF_TOP - ticks).

(** [start_timers] acts on CR1, CR2 and SMCR only, and its checks read
    back the counter-enable bits from the hardware; nothing of the
    modelled state changes. *)
Definition start_timers : M unit := ret tt.

Definition motor_pwm_compute_pwm_val (duty_cycle : Z) : M motor_pwm_val :=
  (* assert(out_val): the result is returned, there is no null pointer *)
  (* Discard extra least significant bits *)
  let shift := MOTOR_PWM_DUTY_CYCLE_RESOLUTION cfg - PWM_TRUE_RESOLUTION in
  corrected_duty_cycle <-
    (if (0 <=? shift) && (shift <? 32)
     then ret (CInt.to_uint32 (Z.shiftr duty_cycle shift))
     else fail UndefinedShift) ;;
  let normalized :=
    CInt.to_uint16
      (CInt.to_uint32
         (PWM_TOP - CInt.to_uint32 (PWM_TOP - corrected_duty_cycle) / 2)) in
  (* Maintain the proper cycling for the high-side pump capacitor *)
  pwm_max <- get _pwm_max ;;
  let normalized := if normalized >? pwm_max then pwm_max else normalized in
  assert (normalized >=? PWM_HALF_TOP) ;;
  assert (normalized <=? PWM_TOP) ;;
  ret (mkPwmVal normalized).

(** Assumes that motor IRQs are disabled! *)
Definition phase_set_i (phase : Z) (pwm_val : motor_pwm_val) (inverted : bool)
  : M unit :=
  assert ((0 <=? phase) && (phase <? 3)) ;;
  (* assert(pwm_val): passed by value, there is no null pointer *)
  let duty_cycle_high := normalized_duty_cycle pwm_val in
  let duty_cycle_low := normalized_duty_cycle pwm_val in
  duty <-
    (if inverted then
       (* Inverted - high PWM is inverted, low is not *)
       low_pol <- array_get TIM3_LOW_CCER_POL phase ;;
       reg_clear_bits (Tim3, RegCCER) low_pol ;;
       high_pol <- array_get TIM4_HIGH_CCER_POL phase ;;
       reg_set_bits (Tim4, RegCCER) high_pol ;;
       dead_time <- get _pwm_dead_time_ticks ;;
       if normalized_duty_cycle pwm_val >? PWM_HALF_TOP
       then ret (duty_cycle_high, CInt.to_uint32 (duty_cycle_low - dead_time))
       else ret (CInt.to_uint32 (duty_cycle_high + dead_time), duty_cycle_low)
     else
       (* Normal - low PWM is inverted, high is not *)
       low_pol <- array_get TIM3_LOW_CCER_POL phase ;;
       reg_set_bits (Tim3, RegCCER) low_pol ;;
       high_pol <- array_get TIM4_HIGH_CCER_POL phase ;;
       reg_clear_bits (Tim4, RegCCER) high_pol ;;
       dead_time <- get _pwm_dead_time_ticks ;;
       if normalized_duty_cycle pwm_val >? PWM_HALF_TOP
       then ret (CInt.to_uint32 (duty_cycle_high - dead_time), duty_cycle_low)
       else ret (duty_cycle_high, CInt.to_uint32 (duty_cycle_low + dead_time))) ;;
  reg_high <- array_get PWM_REG_HIGH phase ;;
  write_reg reg_high (fst duty) ;;
  reg_low <- array_get PWM_REG_LOW phase ;;
  write_reg reg_low (snd duty).

Definition motor_pwm_manip (phase : Z) (command : motor_pwm_phase_manip)
  : M unit :=
  if (phase <? 0) || (phase >? 2) then
    assert false ;;
    ret tt
  else if manip_eqb command MOTOR_PWM_MANIP_HIGH
          || manip_eqb command MOTOR_PWM_MANIP_HALF then
    let duty_cycle :=
      CInt.to_uint16 (if manip_eqb command MOTOR_PWM_MANIP_HIGH
                      then MOTOR_PWM_DUTY_CYCLE_MAX cfg else 0) in
    pwm_val <- motor_pwm_compute_pwm_val duty_cycle ;;
    irq_primask_disable ;;
    phase_set_i phase pwm_val false ;;
    irq_primask_enable
  else
    (* Disable both inversions on this phase *)
    irq_primask_disable ;;
    low_pol <- array_get TIM3_LOW_CCER_POL phase ;;
    reg_clear_bits (Tim3, RegCCER) low_pol ;;
    high_pol <- array_get TIM4_HIGH_CCER_POL phase ;;
    reg_clear_bits (Tim4, RegCCER) high_pol ;;
    irq_primask_enable ;;
    (* Shutdown high side PWM *)
    reg_high <- array_get PWM_REG_HIGH phase ;;
    write_reg reg_high 0 ;;
    reg_low <- array_get PWM_REG_LOW phase ;;
    if manip_eqb command MOTOR_PWM_MANIP_LOW
    then write_reg reg_low PWM_TOP
    else write_reg reg_low 0.

Definition motor_pwm_set_freewheeling : M unit :=
  for_range 0 3 (fun phase => motor_pwm_manip phase MOTOR_PWM_MANIP_FLOATING).

Definition motor_pwm_emergency : M unit :=
  irqstate <- irq_primask_save ;;
  for_range 0 3 (fun phase =>
    (* Disable inversions *)
    low_pol <- array_get TIM3_LOW_CCER_POL phase ;;
    reg_clear_bits (Tim3, RegCCER) low_pol ;;
    high_pol <- array_get TIM4_HIGH_CCER_POL phase ;;
    reg_clear_bits (Tim4, RegCCER) high_pol ;;
    (* Shutdown both gates *)
    reg_high <- array_get PWM_REG_HIGH phase ;;
    write_reg reg_high 0 ;;
    reg_low <- array_get PWM_REG_LOW phase ;;
    write_reg reg_low 0) ;;
  irq_primask_restore irqstate.

Definition motor_pwm_init : M unit :=
  init_timers ;;
  start_timers ;;
  (* PWM limits *)
  let pwm_clock_period := F32.div (F32.of_Z 1) (F32.of_Z PWM_TIMER_FREQUENCY) in
  let pwm_min_pulse_len :=
    F32.div (F32.of_Z PWM_MIN_PULSE_NANOSEC) (F32.of_Z 1000000000) in
  let pwm_min_pulse_ticks_float := F32.div pwm_min_pulse_len pwm_clock_period in
  assert_always (F32.geb pwm_min_pulse_ticks_float (F32.of_Z 0)) ;;
  assert_always (F32.ltb pwm_min_pulse_ticks_float
                   (F32.mul (F32.of_Z PWM_TOP) (F32.literal 5 100))) ;;
  pwm_min_pulse_ticks <-
    of_option UndefinedCast (F32.to_uint16 pwm_min_pulse_ticks_float) ;;
  (* We need to divide the min value by 2 since we're using the
     center-aligned PWM *)
  write_pwm_max (PWM_TOP - (pwm_min_pulse_ticks / 2 + 1)) ;;
  (* PWM dead time *)
  let pwm_dead_time :=
    F32.div (F32.of_Z PWM_DEAD_TIME_NANOSEC) (F32.of_Z 1000000000) in
  let pwm_dead_time_ticks_float := F32.div pwm_dead_time pwm_clock_period in
  assert_always (F32.geb pwm_dead_time_ticks_float (F32.of_Z 0)) ;;
  assert_always (F32.ltb pwm_dead_time_ticks_float
                   (F32.mul (F32.of_Z PWM_TOP) (F32.literal 5 100))) ;;
  (* Dead time shall not be halved *)
  dead_time_ticks <-
    of_option UndefinedCast (F32.to_uint16 pwm_dead_time_ticks_float) ;;
  write_pwm_dead_time_ticks dead_time_ticks ;;
  (* lowsyslog(...): console output only *)
  (* This step is required to complete the initialization *)
  motor_pwm_set_freewheeling.

Definition motor_pwm_set_step_from_isr (step : Z) (pwm_val : motor_pwm_val)
  : M unit := ret tt.

End Driver.

(** ** Observations on the phase-output state *)

(** Compare value of the high / low side of a phase. *)
Definition compare_high (phase : Z) (s : state) : option Z :=
  option_map (fun p => load p s) (index PWM_REG_HIGH phase).
Definition compare_low (phase : Z) (s : state) : option Z :=
  option_map (fun p => load p s) (index PWM_REG_LOW phase).

(** Whether the polarity-inversion bit of the high / low side is set. *)
Definition high_inverted (phase : Z) (s : state) : option bool :=
  option_map (fun m => negb (Z.land (CCER (TIM4 s)) m =? 0))
    (index TIM4_HIGH_CCER_POL phase).
Definition low_inverted (phase : Z) (s : state) : option bool :=
  option_map (fun m => negb (Z.land (CCER (TIM3 s)) m =? 0))
    (index TIM3_LOW_CCER_POL phase).

(** The compare and polarity state of one phase. *)
Record phase_output := mkPhaseOutput {
  po_high : option Z;
  po_low : option Z;
  po_high_inverted : option bool;
  po_low_inverted : option bool
}.

Definition phase_output_of (phase : Z) (s : state) : phase_output :=
  mkPhaseOutput (compare_high phase s) (compare_low phase s)
    (high_inverted phase s) (low_inverted phase s).

(** High impedance: no pulse on either side, no inversion. *)
Definition floating : phase_output :=
  mkPhaseOutput (Some 0) (Some 0) (Some false) (Some false).

(** Permanently conducting to the low rail. *)
Definition driven_low : phase_output :=
  mkPhaseOutput (Some 0) (Some PWM_TOP) (Some false) (Some false).

(** The compare values and inversion flags with which [phase_set_i] leaves
    a phase, as a function of its arguments and of the dead time: the
    pair (high, low) before the 16-bit stores, then the four observations. *)
Definition duty_cycle_pair (inverted : bool) (d dt : Z) : Z * Z :=
  if inverted then
    if d >? PWM_HALF_TOP
    then (d, CInt.to_uint32 (d - dt))
    else (CInt.to_uint32 (d + dt), d)
  else
    if d >? PWM_HALF_TOP
    then (CInt.to_uint32 (d - dt), d)
    else (d, CInt.to_uint32 (d + dt)).

Definition phase_set_output (inverted : bool) (d dt : Z) : phase_output :=
  mkPhaseOutput
    (Some (CInt.to_uint16 (fst (duty_cycle_pair inverted d dt))))
    (Some (CInt.to_uint16 (snd (duty_cycle_pair inverted d dt))))
    (Some inverted) (Some (negb inverted)).

(** ** The statements of the specification *)

(** The formula of the specification for a tick count:
    [ticks = (time_ns / 1e9) * frequency], truncated to an integer, here
    in exact arithmetic. *)
Definition spec_ticks (time_ns frequency : Z) : Z :=
  (time_ns * frequency) / 10 ^ 9.

(** The single-precision expression by which the code turns a time in
    nanoseconds into ticks: [(time_ns / 1e9f) / (1.f / frequency)]. *)
Definition nanosec_to_ticks_float (frequency time_ns : Z) : spec_float :=
  F32.div (F32.div (F32.of_Z time_ns) (F32.of_Z 1000000000))
    (F32.div (F32.of_Z 1) (F32.of_Z frequency)).

(** The rule table of the specification for the dead-time adjustment:

    | inverted | duty > half_top | adjust            |
    | false    | true            | high -= dead_time |
    | false    | false           | low  += dead_time |
    | true     | true            | low  -= dead_time |
    | true     | false           | high += dead_time |

    with the other side left at the normalised duty. *)
Definition spec_rule_table (inverted : bool) (d dt high low : Z) : Prop :=
  match inverted, d >? PWM_HALF_TOP with
  | false, true => high = d - dt /\ low = d
  | false, false => low = d + dt /\ high = d
  | true, true => low = d - dt /\ high = d
  | true, false => high = d + dt /\ low = d
  end.

(** Exactly one of the two compare values differs from the duty, and it
    differs by exactly the dead time. *)
Definition exactly_one_shifted (d dt high low : Z) : Prop :=
  (Z.abs (high - d) = dt /\ high <> d /\ low = d) \/
  (Z.abs (low - d) = dt /\ low <> d /\ high = d).

(** ** Traces

    A trace lists, in program order, the interrupt-mask changes and the
    stores of one run.  Replaying it from the initial state visits every
    intermediate state of the run. *)

Definition apply_event (e : event) (s : state) : state :=
  match e with
  | EvIrqDisable => set_primask true s
  | EvIrqEnable => set_primask false s
  | EvIrqRestore b => set_primask b s
  | EvPeriphReset => reset_timers s
  | EvStore p v => store p v s
  | EvSetPwmMax v => set_pwm_max v s
  | EvSetDeadTime v => set_pwm_dead_time_ticks v s
  end.

Definition replay (tr : list event) (s : state) : state :=
  fold_left (fun s e => apply_event e s) tr s.

(** Events that act on the timers or the interrupt mask, not on the
    module's limits. *)
Definition is_hw_event (e : event) : bool :=
  match e with
  | EvSetPwmMax _ | EvSetDeadTime _ => false
  | _ => true
  end.

Definition is_polarity_store (e : event) : bool :=
  match e with
  | EvStore (_, RegCCER) _ => true
  | _ => false
  end.

Definition is_compare_store (e : event) : bool :=
  match e with
  | EvStore (_, RegCCER) _ => false
  | EvStore _ _ => true
  | _ => false
  end.

Definition mask_after (masked : bool) (e : event) : bool :=
  match e with
  | EvIrqDisable => true
  | EvIrqEnable => false
  | EvIrqRestore b => b
  | _ => masked
  end.

(** Every polarity or compare store of the trace happens while interrupts
    are masked, and all of them inside the same masked section: once the
    mask is dropped after a store, no further store follows. *)
Inductive section_progress := NoStoreYet | InSection | SectionClosed.

Fixpoint one_masked_section (masked : bool) (pr : section_progress)
  (tr : list event) : bool :=
  match tr with
  | [] => true
  | e :: tr' =>
      if is_polarity_store e || is_compare_store e then
        match pr with
        | SectionClosed => false
        | _ => masked && one_masked_section masked InSection tr'
        end
      else
        let masked' := mask_after masked e in
        let pr' := match pr with
                   | InSection => if masked' then InSection else SectionClosed
                   | _ => pr
                   end in
        one_masked_section masked' pr' tr'
  end.

(** No polarity store follows a compare store. *)
Fixpoint polarity_before_compare (seen_compare : bool) (tr : list event) : bool :=
  match tr with
  | [] => true
  | e :: tr' =>
      if is_polarity_store e
      then negb seen_compare && polarity_before_compare seen_compare tr'
      else polarity_before_compare (seen_compare || is_compare_store e) tr'
  end.

(** The states, after each event of the trace, in which interrupts are
    enabled: what an interrupt handler can observe during the run. *)
Fixpoint observable_states (s : state) (tr : list event) : list state :=
  match tr with
  | [] => []
  | e :: tr' =>
      let s' := apply_event e s in
      (if primask s' then [] else [s']) ++ observable_states s' tr'
  end.

(** No observable state shows the phase half updated: each one has the
    phase output of the initial or of the final state. *)
Definition no_half_applied (phase : Z) (s : state) (tr : list event)
  (s_final : state) : Prop :=
  forall x, In x (observable_states s tr) ->
    phase_output_of phase x = phase_output_of phase s \/
    phase_output_of phase x = phase_output_of phase s_final.

(** A run acts on the hardware only: its final state is the replay of its
    trace, and the trace never assigns the module's limits. *)
Definition hw_only {A} (m : M A) : Prop :=
  forall s,
    state_of (m s) = replay (trace_of (m s)) s /\
    forallb is_hw_event (trace_of (m s)) = true.

(** The ordering guarantee, for one run that updates [phase]. *)
Definition update_is_atomic (phase : Z) (s : state) (o : outcome unit) : Prop :=
  one_masked_section (primask s) NoStoreYet (trace_of o) = true /\
  polarity_before_compare false (trace_of o) = true /\
  no_half_applied phase s (trace_of o) (state_of o).

(** ** Reachable states

    The states the module can be in once [motor_pwm_init] has returned:
    any sequence of its operations, with the caller masking or unmasking
    interrupts in between. *)

Inductive reachable (cfg : config) : state -> Prop :=
| reach_init s s' tr :
    motor_pwm_init cfg s = Ok tt s' tr -> reachable cfg s'
| reach_manip s phase command s' tr :
    reachable cfg s ->
    motor_pwm_manip cfg phase command s = Ok tt s' tr -> reachable cfg s'
| reach_phase_set s phase pwm_val inverted s' tr :
    reachable cfg s ->
    phase_set_i cfg phase pwm_val inverted s = Ok tt s' tr -> reachable cfg s'
| reach_compute s duty_cycle v s' tr :
    reachable cfg s ->
    motor_pwm_compute_pwm_val cfg duty_cycle s = Ok v s' tr -> reachable cfg s'
| reach_freewheeling s s' tr :
    reachable cfg s ->
    motor_pwm_set_freewheeling cfg s = Ok tt s' tr -> reachable cfg s'
| reach_emergency s s' tr :
    reachable cfg s ->
    motor_pwm_emergency s = Ok tt s' tr -> reachable cfg s'
| reach_irq s b :
    reachable cfg s -> reachable cfg (set_primask b s).

(** ** An example configuration and its states *)

(** A configuration with the clock of the worked example: 72 MHz timer
    clock, 16-bit external duty codes. *)
Definition example_config (ndebug : bool) : config :=
  mkConfig ndebug 72000000 0 16 65535.

Definition power_on_state : state :=
  mkState TIM_reset TIM_reset 0 0 false.

(** The state in which the module is after power-on initialisation in the
    example configuration. *)
Definition initialised_state : state :=
  state_of (motor_pwm_init (example_config false) power_on_state).

(** A phase in drive: phase 0 after DRIVE_HIGH in the initialised module. *)
Definition driven_state : state :=
  state_of (motor_pwm_manip (example_config false) 0 MOTOR_PWM_MANIP_HIGH
              initialised_state).

(** ** Commutation table *)

Module Commutation.

Record commutation_step := mkStep {
  positive : Z;
  negative : Z;
  floating : Z
}.

Definition COMMUTATION_TABLE : list commutation_step :=
  [ mkStep 1 0 2;   (* Positive, negative, floating *)
    mkStep 1 2 0;
    mkStep 0 2 1;
    mkStep 0 1 2;
    mkStep 2 1 0;
    mkStep 2 0 1 ].

(** The three roles of a step, as a list of phases. *)
Definition roles (c : commutation_step) : list Z :=
  [positive c; negative c; floating c].

(** The number of roles in which two steps differ. *)
Definition roles_changed (a b : commutation_step) : nat :=
  length (filter (fun p => negb (fst p =? snd p)) (combine (roles a) (roles b))).

End Commutation.

(** ** Every state of a run *)

(** The states after each event of a trace, the last one being the final
    state of the run. *)
Fixpoint states_along (s : state) (tr : list event) : list state :=
  match tr with
  | [] => []
  | e :: tr' => let s' := apply_event e s in s' :: states_along s' tr'
  end.

(** Whether an output channel is enabled in a [CCER] word. *)
Definition channel_enabled (ccer mask : Z) : bool :=
  negb (Z.land ccer mask =? 0).

(** All four output channels of both timers are enabled. *)
Definition channels_enabled (s : state) : Prop :=
  forall mask,
    In mask [TIM_CCER_CC1E; TIM_CCER_CC2E; TIM_CCER_CC3E; TIM_CCER_CC4E] ->
    channel_enabled (CCER (TIM3 s)) mask = true /\
    channel_enabled (CCER (TIM4 s)) mask = true.

(** Two states with the same timer registers. *)
Definition regs_eq (a b : state) : Prop :=
  TIM3 a = TIM3 b /\ TIM4 a = TIM4 b.

(** Events of the phase operations: mask changes and register stores. *)
Definition is_mask_or_store (e : event) : bool :=
  match e with
  | EvIrqDisable | EvIrqEnable | EvIrqRestore _ | EvStore _ _ => true
  | _ => false
  end.

(** The two limits of the module. *)
Definition limits (s : state) : Z * Z :=
  (_pwm_max s, _pwm_dead_time_ticks s).

(** What the phase operations have no business with: the channel-enable
    bits of both [CCER] words, the ADC trigger compare [TIM4->CCR4] and
    the unused [TIM3->CCR1]. *)
Definition same_configuration (s s' : state) : Prop :=
  (forall mask,
      In mask [TIM_CCER_CC1E; TIM_CCER_CC2E; TIM_CCER_CC3E; TIM_CCER_CC4E] ->
      channel_enabled (CCER (TIM3 s')) mask = channel_enabled (CCER (TIM3 s)) mask /\
      channel_enabled (CCER (TIM4 s')) mask = channel_enabled (CCER (TIM4 s)) mask) /\
  CCR4 (TIM4 s') = CCR4 (TIM4 s) /\
  CCR1 (TIM3 s') = CCR1 (TIM3 s).

(** The two checks of [init_timers] on the ADC trigger advance, in ticks. *)
Definition adc_advance_checks (frequency adc_ns : Z) : bool :=
  let x := nanosec_to_ticks_float frequency adc_ns in
  F32.geb x (F32.of_Z 0)
  && F32.ltb x (F32.mul (F32.of_Z PWM_TOP) (F32.literal 3 10)).

(** The integers from [lo], [n] of them. *)
Definition Z_range (lo n : Z) : list Z :=
  map (fun k => lo + Z.of_nat k) (seq 0 (Z.to_nat n)).

(** At 72 MHz: an advance of 0..4262 ns passes the checks and is cast to
    the exact product truncated, or to one less when the product is an
    integer; any other advance of the range fails a check. *)
Definition adc_advance_as_expected (adc_ns : Z) : bool :=
  let exact := adc_ns * 72 / 1000 in
  if (0 <=? adc_ns) && (adc_ns <=? 4262) then
    adc_advance_checks 72000000 adc_ns
    && match F32.to_uint16 (nanosec_to_ticks_float 72000000 adc_ns) with
       | Some t =>
           (exact - 1 <=? t) && (t <=? exact)
           && ((adc_ns * 72 mod 1000 =? 0) || (t =? exact))
       | None => false
       end
  else negb (adc_advance_checks 72000000 adc_ns).

(** ** The diagnostic tone generator *)

(** Conversion to [uint64_t]. *)
Definition to_uint64 (x : Z) : Z := x mod 2 ^ 64.

(** How a run of [motor_pwm_beep] ends. The division by a zero
    [frequency] and the overflow of the [int] product
    [duration_msec * HNSEC_PER_MSEC] are undefined in C: the model stops
    there. [BeepOutOfFuel] is the bound on the turns of the [while] loop,
    which by itself ends only when the clock says so. *)
Inductive beep_result :=
| BeepDone
| BeepDivisionByZero
| BeepSignedOverflow
| BeepOutOfFuel.

(** The values of [int] on the target. *)
Definition in_int (x : Z) : bool := (- 2 ^ 31 <=? x) && (x <? 2 ^ 31).

Section Beep.

Variable cfg : config.

(** Modelled from the spec: [motor_timer_hnsec] is declared in timer.h;
    it reads a monotonic counter of the time-source collaborator.  The
    value of its [k]-th call during a run is [clock k]; nothing is
    assumed of these values. *)
Variable clock : nat -> Z.

(** Modelled from the spec: [motor_timer_udelay] is declared in timer.h;
    it is the busy-wait delay primitive of the time-source collaborator.
    Waiting changes none of the registers; the time that passes shows in
    the later readings of the clock. *)
Definition motor_timer_udelay (usec : Z) : M unit := ret tt.

(** Modelled from the spec: [HNSEC_PER_MSEC] is a macro of timer.h, the
    ticks of the clock per millisecond; it is taken as an [int] constant,
    so that its product with [duration_msec] is computed in [int]. *)
Variable HNSEC_PER_MSEC : Z.

Definition ENERGIZING_DURATION_USEC : Z := 9.

(** One turn of the [while] loop of [motor_pwm_beep]. *)
Definition beep_cycle (half_period_usec : Z) : M unit :=
  motor_pwm_manip cfg 0 MOTOR_PWM_MANIP_HIGH ;;
  motor_timer_udelay ENERGIZING_DURATION_USEC ;;
  motor_pwm_manip cfg 0 MOTOR_PWM_MANIP_FLOATING ;;
  motor_timer_udelay half_period_usec ;;
  motor_pwm_manip cfg 2 MOTOR_PWM_MANIP_HIGH ;;
  motor_timer_udelay ENERGIZING_DURATION_USEC ;;
  motor_pwm_manip cfg 2 MOTOR_PWM_MANIP_FLOATING ;;
  motor_timer_udelay half_period_usec.

(** [while (end_time > motor_timer_hnsec()) { ... }], at most [fuel]
    turns; [reading] counts the calls of [motor_timer_hnsec]. The result
    tells whether the loop ended by its condition. *)
Fixpoint beep_loop (fuel : nat) (reading : nat) (end_time half_period_usec : Z)
  : M bool :=
  match fuel with
  | O => ret false
  | S fuel' =>
      if end_time >? clock reading
      then (beep_cycle half_period_usec ;;
            beep_loop fuel' (S reading) end_time half_period_usec)
      else ret true
  end.

Definition motor_pwm_beep (fuel : nat) (frequency duration_msec : Z)
  : M beep_result :=
  (* 1 is always low, 0 and 2 are alternating *)
  motor_pwm_set_freewheeling cfg ;;
  motor_pwm_manip cfg 1 MOTOR_PWM_MANIP_LOW ;;
  if frequency =? 0 then ret BeepDivisionByZero
  else
    let half_period_usec := Z.quot (Z.quot 1000000 frequency) 2 in
    if negb (in_int (duration_msec * HNSEC_PER_MSEC)) then ret BeepSignedOverflow
    else
      let end_time := to_uint64 (clock 0 + duration_msec * HNSEC_PER_MSEC) in
      finished <- beep_loop fuel 1 end_time half_period_usec ;;
      if finished : bool
      then (motor_pwm_set_freewheeling cfg ;; ret BeepDone)
      else ret BeepOutOfFuel.

End Beep.

(** Between two turns of the loop: phases 0 and 2 float, phase 1 is low. *)
Definition beep_idle (s : state) : Prop :=
  phase_output_of 0 s = floating /\
  phase_output_of 2 s = floating /\
  phase_output_of 1 s = driven_low.

(** Within the loop: phase 1 is low and one of phases 0 and 2 floats. *)
Definition beep_sounding (s : state) : Prop :=
  phase_output_of 1 s = driven_low /\
  (phase_output_of 0 s = floating \/ phase_output_of 2 s = floating).

(** While the tone generator runs, the high side of phase 1 is never
    driven, and phases 0 and 2 are never energised together. *)
Definition beep_safe (x : state) : Prop :=
  compare_high 1 x = Some 0 /\
  high_inverted 1 x = Some false /\
  (phase_output_of 0 x = floating \/ phase_output_of 2 x = floating).

(** ** A program logic over the states of a run

    [along Pre Inv Post m]: from a state satisfying [Pre], every state
    after an event of the run of [m] satisfies [Inv], whether the run
    returns or stops at a fault, and [Post] holds when it returns. *)
Definition along {A} (Pre Inv Post : state -> Prop) (m : M A) : Prop :=
  forall s, Pre s ->
    Forall Inv (states_along s (trace_of (m s))) /\
    (forall a s' tr, m s = Ok a s' tr -> Post s').

(** * Properties *)

(** ** Machine integers and polarity bits *)

Lemma to_uint16_range x : 0 <= CInt.to_uint16 x < 2 ^ 16.
Proof. unfold CInt.to_uint16. apply Z.mod_pos_bound. lia. Qed.

Lemma to_uint16_small x : 0 <= x < 2 ^ 16 -> CInt.to_uint16 x = x.
Proof. intros H. unfold CInt.to_uint16. apply Z.mod_small. exact H. Qed.

Lemma to_uint16_idem x : CInt.to_uint16 (CInt.to_uint16 x) = CInt.to_uint16 x.
Proof. apply to_uint16_small, to_uint16_range. Qed.

Lemma to_uint32_small x : 0 <= x < 2 ^ 32 -> CInt.to_uint32 x = x.
Proof. intros H. unfold CInt.to_uint32. apply Z.mod_small. exact H. Qed.

Lemma testbit_to_uint16 x i :
  0 <= i < 16 -> Z.testbit (CInt.to_uint16 x) i = Z.testbit x i.
Proof. intros H. unfold CInt.to_uint16. apply Z.mod_pow2_bits_low. lia. Qed.

(** Testing a register against a one-bit mask reads that bit. *)
Lemma polarity_bit x k :
  0 <= k -> negb (Z.land x (2 ^ k) =? 0) = Z.testbit x k.
Proof.
  intros Hk.
  assert (E : Z.land x (2 ^ k) = if Z.testbit x k then 2 ^ k else 0).
  { apply Z.bits_inj'. intros n Hn.
    rewrite Z.land_spec, Z.pow2_bits_eqb by lia.
    destruct (Z.eqb_spec k n) as [->|Hne].
    - destruct (Z.testbit x n);
        [rewrite Z.pow2_bits_true by lia | rewrite Z.bits_0]; reflexivity.
    - rewrite andb_false_r.
      destruct (Z.testbit x k);
        [rewrite Z.pow2_bits_false by lia | rewrite Z.bits_0]; reflexivity. }
  rewrite E. destruct (Z.testbit x k).
  - assert (0 < 2 ^ k) by (apply Z.pow_pos_nonneg; lia).
    destruct (Z.eqb_spec (2 ^ k) 0); [lia | reflexivity].
  - reflexivity.
Qed.

(** Bit [k] of a 16-bit register after [reg &= ~2^j] and [reg |= 2^j]. *)
Lemma testbit_clear x j k :
  0 <= j -> 0 <= k < 16 ->
  Z.testbit (CInt.to_uint16 (Z.land x (Z.lnot (2 ^ j)))) k
  = Z.testbit x k && negb (j =? k).
Proof.
  intros Hj Hk.
  rewrite testbit_to_uint16, Z.land_spec, Z.lnot_spec, Z.pow2_bits_eqb by lia.
  reflexivity.
Qed.

Lemma testbit_set x j k :
  0 <= j -> 0 <= k < 16 ->
  Z.testbit (CInt.to_uint16 (Z.lor x (2 ^ j))) k = Z.testbit x k || (j =? k).
Proof.
  intros Hj Hk.
  rewrite testbit_to_uint16, Z.lor_spec, Z.pow2_bits_eqb by lia.
  reflexivity.
Qed.

(** ** Reasoning about runs *)

Lemma bind_Ok {A B} (m : M A) (k : A -> M B) s a s1 tr1 :
  m s = Ok a s1 tr1 ->
  bind m k s = match k a s1 with
               | Ok b s2 tr2 => Ok b s2 (tr1 ++ tr2)
               | Err f s2 tr2 => Err f s2 (tr1 ++ tr2)
               end.
Proof. intros H. unfold bind. rewrite H. reflexivity. Qed.

Lemma bind_Err {A B} (m : M A) (k : A -> M B) s f s1 tr1 :
  m s = Err f s1 tr1 -> bind m k s = Err f s1 tr1.
Proof. intros H. unfold bind. rewrite H. reflexivity. Qed.

Lemma replay_app tr1 tr2 s : replay (tr1 ++ tr2) s = replay tr2 (replay tr1 s).
Proof. unfold replay. apply fold_left_app. Qed.

Lemma store_to_uint16 p v s : store p (CInt.to_uint16 v) s = store p v s.
Proof. unfold store. rewrite to_uint16_idem. reflexivity. Qed.

Lemma hw_only_ret {A} (a : A) : hw_only (ret a).
Proof. intros s. split; reflexivity. Qed.

Lemma hw_only_fail {A} f : hw_only (@fail A f).
Proof. intros s. split; reflexivity. Qed.

Lemma hw_only_get {A} (proj : state -> A) : hw_only (get proj).
Proof. intros s. split; reflexivity. Qed.

Lemma hw_only_read_reg p : hw_only (read_reg p).
Proof. intros s. split; reflexivity. Qed.

Lemma hw_only_write_reg p v : hw_only (write_reg p v).
Proof.
  intros s. split; [|reflexivity].
  cbn. symmetry. apply store_to_uint16.
Qed.

Lemma hw_only_bind {A B} (m : M A) (k : A -> M B) :
  hw_only m -> (forall a, hw_only (k a)) -> hw_only (bind m k).
Proof.
  intros Hm Hk s. unfold bind.
  destruct (Hm s) as [Hs Ht].
  destruct (m s) as [a s1 tr1 | f s1 tr1]; cbn [state_of trace_of] in *.
  - destruct (Hk a s1) as [Hs' Ht'].
    destruct (k a s1) as [b s2 tr2 | f s2 tr2]; cbn [state_of trace_of] in *;
      rewrite replay_app, forallb_app, Ht, Ht', <- Hs, <- Hs'; split; reflexivity.
  - split; assumption.
Qed.

Lemma hw_only_irq_disable : hw_only irq_primask_disable.
Proof. intros s. split; reflexivity. Qed.

Lemma hw_only_irq_enable : hw_only irq_primask_enable.
Proof. intros s. split; reflexivity. Qed.

Lemma hw_only_irq_save : hw_only irq_primask_save.
Proof. intros s. split; reflexivity. Qed.

Lemma hw_only_irq_restore b : hw_only (irq_primask_restore b).
Proof. intros s. split; reflexivity. Qed.

Lemma hw_only_of_option {A} f (o : option A) : hw_only (of_option f o).
Proof. destruct o; [apply hw_only_ret | apply hw_only_fail]. Qed.

Lemma hw_only_assert cfg c : hw_only (assert cfg c).
Proof.
  unfold assert. destruct (NDEBUG cfg); [apply hw_only_ret|].
  destruct c; [apply hw_only_ret | apply hw_only_fail].
Qed.

Create HintDb hw discriminated.
#[local] Hint Resolve hw_only_ret hw_only_fail hw_only_get hw_only_read_reg
  hw_only_write_reg hw_only_irq_disable hw_only_irq_enable hw_only_irq_save
  hw_only_irq_restore hw_only_of_option hw_only_assert : hw.

Ltac hw_steps :=
  repeat match goal with
    | |- hw_only (bind _ _) => apply hw_only_bind; [| intros ?]
    | |- hw_only (if ?c then _ else _) => destruct c
    | |- hw_only _ => solve [auto with hw]
    end.

Lemma hw_only_reg_set_bits p m : hw_only (reg_set_bits p m).
Proof. unfold reg_set_bits. hw_steps. Qed.

Lemma hw_only_reg_clear_bits p m : hw_only (reg_clear_bits p m).
Proof. unfold reg_clear_bits. hw_steps. Qed.

Lemma hw_only_array_get {A} (tbl : list A) i : hw_only (array_get tbl i).
Proof. unfold array_get. auto with hw. Qed.

#[local] Hint Resolve hw_only_reg_set_bits hw_only_reg_clear_bits
  hw_only_array_get : hw.

Lemma hw_only_for_loop n i body :
  (forall j, hw_only (body j)) -> hw_only (for_loop n i body).
Proof.
  intros Hb. revert i. induction n as [|n IH]; intros i; cbn [for_loop].
  - apply hw_only_ret.
  - apply hw_only_bind; [apply Hb | intros _; apply IH].
Qed.

Lemma hw_only_compute cfg duty_cycle :
  hw_only (motor_pwm_compute_pwm_val cfg duty_cycle).
Proof. unfold motor_pwm_compute_pwm_val. cbv zeta. hw_steps. Qed.

Lemma hw_only_phase_set cfg phase v inverted :
  hw_only (phase_set_i cfg phase v inverted).
Proof. unfold phase_set_i. cbv zeta. hw_steps. Qed.

Lemma hw_only_manip cfg phase command :
  hw_only (motor_pwm_manip cfg phase command).
Proof.
  unfold motor_pwm_manip. cbv zeta.
  pose proof (hw_only_compute cfg) as Hc.
  pose proof (hw_only_phase_set cfg) as Hp.
  hw_steps.
Qed.

Lemma hw_only_freewheeling cfg : hw_only (motor_pwm_set_freewheeling cfg).
Proof.
  unfold motor_pwm_set_freewheeling, for_range.
  apply hw_only_for_loop. intros j. apply hw_only_manip.
Qed.

Lemma hw_only_emergency : hw_only motor_pwm_emergency.
Proof.
  unfold motor_pwm_emergency, for_range.
  apply hw_only_bind; [auto with hw | intros irqstate].
  apply hw_only_bind; [| intros _; auto with hw].
  apply hw_only_for_loop. intros j. hw_steps.
Qed.

(** Hardware events leave the limits alone. *)
Lemma replay_hw_limits tr : forall s,
  forallb is_hw_event tr = true ->
  _pwm_max (replay tr s) = _pwm_max s /\
  _pwm_dead_time_ticks (replay tr s) = _pwm_dead_time_ticks s.
Proof.
  induction tr as [|e tr IH]; intros s H; cbn in *.
  - split; reflexivity.
  - apply andb_prop in H. destruct H as [He Htr].
    destruct (IH (apply_event e s) Htr) as [H1 H2].
    unfold replay in H1, H2. rewrite H1, H2.
    destruct e as [| | b | | [[|] r] v | v | v]; cbn in *;
      try discriminate; split; reflexivity.
Qed.

Lemma hw_only_limits {A} (m : M A) s :
  hw_only m ->
  _pwm_max (state_of (m s)) = _pwm_max s /\
  _pwm_dead_time_ticks (state_of (m s)) = _pwm_dead_time_ticks s.
Proof.
  intros H. destruct (H s) as [Hs Ht]. rewrite Hs.
  apply replay_hw_limits. exact Ht.
Qed.

(** ** Symbolic execution *)

Ltac destruct_state s :=
  let c3 := fresh "ccer3" in
  let c4 := fresh "ccer4" in
  destruct s as [[c3 ? ? ? ?] [c4 ? ? ? ?] ? ? ?].

Ltac phase_cases phase :=
  let H := fresh in
  assert (H : phase = 0 \/ phase = 1 \/ phase = 2) by lia;
  destruct H as [-> | [-> | ->]].

Ltac run :=
  cbv -[Z.land Z.lor Z.lnot Z.eqb negb CInt.to_uint16 CInt.to_uint32].

(** Evaluates the closed single-precision expressions of a goal. *)
Ltac eval_floats :=
  cbv zeta;
  repeat match goal with
    | |- context [assert_always ?b] =>
        lazymatch b with true => fail | _ => idtac end;
        replace b with true by (vm_compute; reflexivity)
    | |- context [F32.to_uint16 ?x] =>
        let v := eval vm_compute in (F32.to_uint16 x) in
        replace (F32.to_uint16 x) with v by (vm_compute; reflexivity)
    end.

(** Rewrites the polarity masks as powers of two and reads the bits. *)
Ltac polarity :=
  change (CInt.to_uint16 0) with 0;
  rewrite ?(polarity_bit _ 1), ?(polarity_bit _ 5), ?(polarity_bit _ 9),
    ?(polarity_bit _ 13) by lia;
  repeat first
    [ rewrite (testbit_clear _ 1) by lia | rewrite (testbit_clear _ 5) by lia
    | rewrite (testbit_clear _ 9) by lia | rewrite (testbit_clear _ 13) by lia
    | rewrite (testbit_set _ 1) by lia | rewrite (testbit_set _ 5) by lia
    | rewrite (testbit_set _ 9) by lia | rewrite (testbit_set _ 13) by lia ];
  cbn [Z.eqb Pos.eqb negb andb orb];
  rewrite ?andb_false_r, ?andb_true_r, ?orb_true_r, ?orb_false_r;
  try reflexivity.

(** ** Shutdown paths *)

(** C4: from any prior state, [motor_pwm_emergency] returns, and leaves
    all six compare values at zero and all six polarity-inversion bits
    cleared. *)
Theorem emergency_zeroes_all_phases (s : state) :
  exists s' tr,
    motor_pwm_emergency s = Ok tt s' tr /\
    phase_output_of 0 s' = floating /\
    phase_output_of 1 s' = floating /\
    phase_output_of 2 s' = floating.
Proof.
  destruct_state s. do 2 eexists.
  split; [run; reflexivity|].
  repeat split; run; polarity.
Qed.

(** C5: for a phase in 0..2 and any prior state, [motor_pwm_manip] with
    FLOATING returns and leaves the phase with both compare values zero
    and both inversion bits cleared; [motor_pwm_set_freewheeling] returns
    and establishes this on all three phases. *)
Theorem manip_floating (cfg : config) (s : state) (phase : Z) :
  0 <= phase <= 2 ->
  (exists s' tr,
      motor_pwm_manip cfg phase MOTOR_PWM_MANIP_FLOATING s = Ok tt s' tr /\
      phase_output_of phase s' = floating) /\
  (exists s' tr,
      motor_pwm_set_freewheeling cfg s = Ok tt s' tr /\
      phase_output_of 0 s' = floating /\
      phase_output_of 1 s' = floating /\
      phase_output_of 2 s' = floating).
Proof.
  intros Hphase. destruct_state s. split.
  - phase_cases phase; do 2 eexists;
      (split; [run; reflexivity | run; polarity]).
  - do 2 eexists. split; [run; reflexivity|].
    repeat split; run; polarity.
Qed.

Lemma manip_floating_witness :
  0 <= 1 <= 2 /\
  (exists s' tr,
      motor_pwm_manip (example_config false) 1 MOTOR_PWM_MANIP_FLOATING
        power_on_state = Ok tt s' tr /\
      phase_output_of 1 s' = floating) /\
  (exists s' tr,
      motor_pwm_set_freewheeling (example_config false) power_on_state
      = Ok tt s' tr /\
      phase_output_of 0 s' = floating /\
      phase_output_of 1 s' = floating /\
      phase_output_of 2 s' = floating).
Proof.
  split; [lia|].
  apply (manip_floating (example_config false) power_on_state 1). lia.
Defined.

(** C6: for a phase in 0..2 and any prior state, [motor_pwm_manip] with
    DRIVE_LOW returns and leaves the phase with high compare 0, low
    compare [PWM_TOP] and both inversion bits cleared. *)
Theorem manip_drive_low (cfg : config) (s : state) (phase : Z) :
  0 <= phase <= 2 ->
  exists s' tr,
    motor_pwm_manip cfg phase MOTOR_PWM_MANIP_LOW s = Ok tt s' tr /\
    phase_output_of phase s' = driven_low.
Proof.
  intros Hphase. destruct_state s.
  phase_cases phase; do 2 eexists;
    (split; [run; reflexivity | run; polarity]).
Qed.

Lemma manip_drive_low_witness :
  0 <= 2 <= 2 /\
  exists s' tr,
    motor_pwm_manip (example_config false) 2 MOTOR_PWM_MANIP_LOW
      power_on_state = Ok tt s' tr /\
    phase_output_of 2 s' = driven_low.
Proof.
  split; [lia|].
  apply (manip_drive_low (example_config false) power_on_state 2). lia.
Defined.

(** C10: [motor_pwm_manip] on a phase index outside 0..2 performs no
    store and leaves the whole state unchanged, for every mode; with
    assertions compiled out it returns normally. *)
Theorem manip_invalid_phase_is_noop (cfg : config) (s : state) (phase : Z)
  (command : motor_pwm_phase_manip) :
  phase < 0 \/ 2 < phase ->
  state_of (motor_pwm_manip cfg phase command s) = s /\
  trace_of (motor_pwm_manip cfg phase command s) = [] /\
  (NDEBUG cfg = true -> motor_pwm_manip cfg phase command s = Ok tt s []).
Proof.
  intros Hphase. unfold motor_pwm_manip.
  assert (E : (phase <? 0) || (phase >? 2) = true).
  { apply orb_true_iff. destruct Hphase; [left | right]; lia. }
  rewrite E. unfold bind, assert.
  destruct (NDEBUG cfg); cbn [ret fail state_of trace_of app].
  - split; [reflexivity|]. split; [reflexivity|]. intros _. reflexivity.
  - split; [reflexivity|]. split; [reflexivity|]. intros H. discriminate H.
Qed.

Lemma manip_invalid_phase_is_noop_witness :
  state_of (motor_pwm_manip (example_config true) 3 MOTOR_PWM_MANIP_HIGH
              power_on_state) = power_on_state /\
  trace_of (motor_pwm_manip (example_config true) 3 MOTOR_PWM_MANIP_HIGH
              power_on_state) = [] /\
  (NDEBUG (example_config true) = true ->
   motor_pwm_manip (example_config true) 3 MOTOR_PWM_MANIP_HIGH power_on_state
   = Ok tt power_on_state []).
Proof.
  apply (manip_invalid_phase_is_noop (example_config true) power_on_state 3).
  right. lia.
Defined.

(** ** Initialisation and the limits *)

(** Once the timers are brought up, the rest of [motor_pwm_init] runs to
    completion at 72 MHz, with these limits and every phase floating. *)
Lemma init_after_timers cfg s s1 tr1 :
  STM32_TIMCLK1 cfg = 72000000 ->
  init_timers cfg s = Ok tt s1 tr1 ->
  exists s' tr2,
    motor_pwm_init cfg s = Ok tt s' (tr1 ++ tr2) /\
    _pwm_max s' = 1012 /\ _pwm_dead_time_ticks s' = 28.
Proof.
  intros Hf Ht. unfold motor_pwm_init. rewrite (bind_Ok _ _ _ _ _ _ Ht).
  destruct cfg as [nd f adc res mx]. cbn in Hf. subst f.
  destruct_state s1. do 2 eexists.
  split; [eval_floats; run; reflexivity|].
  split; reflexivity.
Qed.

Lemma init_limits cfg s s' tr :
  STM32_TIMCLK1 cfg = 72000000 ->
  motor_pwm_init cfg s = Ok tt s' tr ->
  _pwm_max s' = 1012 /\ _pwm_dead_time_ticks s' = 28.
Proof.
  intros Hf Hi.
  destruct (init_timers cfg s) as [[] s1 tr1 | f s1 tr1] eqn:Ht.
  - destruct (init_after_timers cfg s s1 tr1 Hf Ht) as (s2 & tr2 & E & Hm & Hd).
    rewrite E in Hi. injection Hi as <- _. split; assumption.
  - unfold motor_pwm_init in Hi. rewrite (bind_Err _ _ _ _ _ _ Ht) in Hi.
    discriminate.
Qed.

(** The limits are derived once, by initialisation, and no operation
    changes them afterwards. *)
Lemma reachable_limits cfg s :
  STM32_TIMCLK1 cfg = 72000000 ->
  reachable cfg s ->
  _pwm_max s = 1012 /\ _pwm_dead_time_ticks s = 28.
Proof.
  intros Hf Hr.
  induction Hr as [s s' tr Hi
                  | s phase command s' tr _ IH H
                  | s phase v inverted s' tr _ IH H
                  | s duty v s' tr _ IH H
                  | s s' tr _ IH H
                  | s s' tr _ IH H
                  | s b _ IH].
  - exact (init_limits cfg s s' tr Hf Hi).
  - pose proof (hw_only_limits _ s (hw_only_manip cfg phase command)) as L.
    rewrite H in L. cbn in L. destruct L as [-> ->]. exact IH.
  - pose proof (hw_only_limits _ s (hw_only_phase_set cfg phase v inverted)) as L.
    rewrite H in L. cbn in L. destruct L as [-> ->]. exact IH.
  - pose proof (hw_only_limits _ s (hw_only_compute cfg duty)) as L.
    rewrite H in L. cbn in L. destruct L as [-> ->]. exact IH.
  - pose proof (hw_only_limits _ s (hw_only_freewheeling cfg)) as L.
    rewrite H in L. cbn in L. destruct L as [-> ->]. exact IH.
  - pose proof (hw_only_limits _ s hw_only_emergency) as L.
    rewrite H in L. cbn in L. destruct L as [-> ->]. exact IH.
  - exact IH.
Qed.

(** C3: at a 72 MHz counting frequency and 10-bit resolution, with the
    300 ns minimum pulse and 400 ns dead time, initialisation completes
    (once the timer bring-up has) and derives [dead_time_ticks] = 28, the
    truncation of 400e-9 * 72e6, not halved, and [pwm_max] =
    top - (minimum_pulse_ticks / 2 + 1) = 1023 - 11 = 1012 with
    minimum_pulse_ticks = 21, the truncation of 300e-9 * 72e6: the
    single-precision arithmetic of the code ([nanosec_to_ticks_float],
    then the cast) gives exactly the values of the formula in exact
    arithmetic ([spec_ticks]). *)
Theorem init_derives_limits cfg s s1 tr1 :
  STM32_TIMCLK1 cfg = 72000000 ->
  init_timers cfg s = Ok tt s1 tr1 ->
  exists s' tr,
    motor_pwm_init cfg s = Ok tt s' tr /\
    PWM_TOP = 1023 /\
    F32.to_uint16 (nanosec_to_ticks_float 72000000 PWM_DEAD_TIME_NANOSEC)
    = Some 28 /\
    F32.to_uint16 (nanosec_to_ticks_float 72000000 PWM_MIN_PULSE_NANOSEC)
    = Some 21 /\
    spec_ticks PWM_DEAD_TIME_NANOSEC 72000000 = 28 /\
    _pwm_dead_time_ticks s' = spec_ticks PWM_DEAD_TIME_NANOSEC 72000000 /\
    spec_ticks PWM_MIN_PULSE_NANOSEC 72000000 = 21 /\
    _pwm_max s' = PWM_TOP - (spec_ticks PWM_MIN_PULSE_NANOSEC 72000000 / 2 + 1) /\
    _pwm_max s' = 1012.
Proof.
  intros Hf Ht.
  destruct (init_after_timers cfg s s1 tr1 Hf Ht) as (s' & tr2 & E & Hm & Hd).
  exists s', (tr1 ++ tr2). rewrite Hm, Hd.
  split; [exact E|].
  repeat split; vm_compute; reflexivity.
Qed.

Lemma init_derives_limits_witness :
  exists s' tr,
    motor_pwm_init (example_config false) power_on_state = Ok tt s' tr /\
    PWM_TOP = 1023 /\
    F32.to_uint16 (nanosec_to_ticks_float 72000000 PWM_DEAD_TIME_NANOSEC)
    = Some 28 /\
    F32.to_uint16 (nanosec_to_ticks_float 72000000 PWM_MIN_PULSE_NANOSEC)
    = Some 21 /\
    spec_ticks PWM_DEAD_TIME_NANOSEC 72000000 = 28 /\
    _pwm_dead_time_ticks s' = spec_ticks PWM_DEAD_TIME_NANOSEC 72000000 /\
    spec_ticks PWM_MIN_PULSE_NANOSEC 72000000 = 21 /\
    _pwm_max s' = PWM_TOP - (spec_ticks PWM_MIN_PULSE_NANOSEC 72000000 / 2 + 1) /\
    _pwm_max s' = 1012.
Proof.
  eapply (init_derives_limits (example_config false) power_on_state).
  - reflexivity.
  - vm_compute. reflexivity.
Defined.

(** ** The phase output controller *)

Ltac run_arith :=
  cbv -[Z.land Z.lor Z.lnot Z.eqb Z.gtb Z.add Z.sub negb
        CInt.to_uint16 CInt.to_uint32].

Ltac run_arith_in H :=
  cbv -[Z.land Z.lor Z.lnot Z.eqb Z.gtb Z.add Z.sub negb
        CInt.to_uint16 CInt.to_uint32] in H.

(** [phase_set_i] on a valid phase always returns; it leaves the phase
    with the outputs described by [phase_set_output] and touches neither
    the interrupt mask nor the limits. *)
Lemma phase_set_i_output cfg s phase inverted d :
  0 <= phase <= 2 ->
  exists s' tr,
    phase_set_i cfg phase (mkPwmVal d) inverted s = Ok tt s' tr /\
    phase_output_of phase s'
    = phase_set_output inverted d (_pwm_dead_time_ticks s) /\
    primask s' = primask s.
Proof.
  intros Hphase. destruct cfg as [nd f adc res mx]. destruct_state s.
  unfold phase_set_i, phase_set_output, duty_cycle_pair.
  cbn [normalized_duty_cycle _pwm_dead_time_ticks].
  phase_cases phase; destruct nd, inverted, (d >? PWM_HALF_TOP);
    do 2 eexists;
    (split; [run_arith; reflexivity | split; [run_arith; polarity | reflexivity]]).
Qed.

(** The interrupt mask plays no part in the phase output. *)
Lemma phase_output_set_primask phase b s :
  phase_output_of phase (set_primask b s) = phase_output_of phase s.
Proof. reflexivity. Qed.

Lemma phase_set_i_primask_irrelevant cfg s phase inverted d b s1 tr1 s2 tr2 :
  0 <= phase <= 2 ->
  phase_set_i cfg phase (mkPwmVal d) inverted s = Ok tt s1 tr1 ->
  phase_set_i cfg phase (mkPwmVal d) inverted (set_primask b s) = Ok tt s2 tr2 ->
  phase_output_of phase s2 = phase_output_of phase s1 /\ tr2 = tr1.
Proof.
  intros Hphase. destruct cfg as [nd f adc res mx]. destruct_state s.
  unfold phase_set_i. cbn [normalized_duty_cycle].
  phase_cases phase; destruct nd, inverted, (d >? PWM_HALF_TOP);
    run_arith; intros H1 H2;
    injection H1 as <- <-; injection H2 as <- <-; split; reflexivity.
Qed.

(** ** The duty-cycle normaliser *)

(** The arithmetic of the normaliser on an in-range corrected duty. *)
Lemma normalized_arith c :
  0 <= c <= 1023 ->
  CInt.to_uint16 (CInt.to_uint32 (PWM_TOP - CInt.to_uint32 (PWM_TOP - c) / 2))
  = 1023 - (1023 - c) / 2.
Proof.
  intros Hc. change PWM_TOP with 1023.
  rewrite (to_uint32_small (1023 - c)) by lia.
  assert (0 <= (1023 - c) / 2 <= 511)
    by (Z.to_euclidean_division_equations; lia).
  rewrite to_uint32_small by lia.
  apply to_uint16_small. lia.
Qed.

Lemma corrected_duty_range duty res :
  PWM_TRUE_RESOLUTION <= res ->
  0 <= duty < 2 ^ res ->
  0 <= Z.shiftr duty (res - PWM_TRUE_RESOLUTION) <= 1023.
Proof.
  unfold PWM_TRUE_RESOLUTION. intros Hres Hd.
  rewrite Z.shiftr_div_pow2 by lia.
  assert (Hp : 0 < 2 ^ (res - 10)) by (apply Z.pow_pos_nonneg; lia).
  split; [apply Z.div_pos; lia|].
  assert (duty / 2 ^ (res - 10) < 1024); [|lia].
  apply Z.div_lt_upper_bound; [exact Hp|].
  replace (2 ^ (res - 10) * 1024) with (2 ^ res); [lia|].
  change 1024 with (2 ^ 10). rewrite <- Z.pow_add_r by lia.
  f_equal. lia.
Qed.

(** With the limit derived at 72 MHz the normaliser returns, without
    touching the state, a value between half-top and [pwm_max]. *)
Lemma compute_pwm_val_run cfg s duty :
  _pwm_max s = 1012 ->
  PWM_TRUE_RESOLUTION <= MOTOR_PWM_DUTY_CYCLE_RESOLUTION cfg
                      < PWM_TRUE_RESOLUTION + 32 ->
  0 <= duty < 2 ^ MOTOR_PWM_DUTY_CYCLE_RESOLUTION cfg ->
  exists n,
    motor_pwm_compute_pwm_val cfg duty s = Ok (mkPwmVal n) s [] /\
    n = Z.min 1012
          (1023 - (1023 - Z.shiftr duty (MOTOR_PWM_DUTY_CYCLE_RESOLUTION cfg
                                          - PWM_TRUE_RESOLUTION)) / 2) /\
    PWM_HALF_TOP <= n <= 1012.
Proof.
  intros Hmax Hres Hduty.
  pose proof (corrected_duty_range duty _ (proj1 Hres) Hduty) as Hc.
  set (c := Z.shiftr duty (MOTOR_PWM_DUTY_CYCLE_RESOLUTION cfg
                           - PWM_TRUE_RESOLUTION)) in *.
  assert (Hraw : 512 <= 1023 - (1023 - c) / 2 <= 1023).
  { Z.to_euclidean_division_equations. lia. }
  exists (Z.min 1012 (1023 - (1023 - c) / 2)).
  split; [| split; [reflexivity | change PWM_HALF_TOP with 512; lia]].
  unfold motor_pwm_compute_pwm_val.
  assert (G : (0 <=? MOTOR_PWM_DUTY_CYCLE_RESOLUTION cfg - PWM_TRUE_RESOLUTION)
              && (MOTOR_PWM_DUTY_CYCLE_RESOLUTION cfg - PWM_TRUE_RESOLUTION <? 32)
              = true).
  { apply andb_true_iff. split; lia. }
  rewrite G. fold c.
  unfold bind, ret, get. cbv zeta.
  rewrite (to_uint32_small c) by lia.
  rewrite normalized_arith by lia. rewrite Hmax.
  set (raw := 1023 - (1023 - c) / 2) in *.
  assert (E : (if raw >? 1012 then 1012 else raw) = Z.min 1012 raw).
  { destruct (Z.gtb_spec raw 1012); lia. }
  rewrite E.
  assert (A1 : (Z.min 1012 raw >=? PWM_HALF_TOP) = true).
  { change PWM_HALF_TOP with 512. apply Z.geb_le. lia. }
  assert (A2 : (Z.min 1012 raw <=? PWM_TOP) = true).
  { change PWM_TOP with 1023. apply Z.leb_le. lia. }
  rewrite A1, A2. unfold assert, ret.
  destruct (NDEBUG cfg); reflexivity.
Qed.

(** The initialised state of the example is reached by one run of
    [motor_pwm_init] from power-on. *)
Ltac initialised_reachable :=
  apply (reach_init _ power_on_state _
           (trace_of (motor_pwm_init (example_config false) power_on_state)));
  vm_compute; reflexivity.

Lemma phase_output_fields phase s o :
  phase_output_of phase s = o ->
  compare_high phase s = po_high o /\ compare_low phase s = po_low o /\
  high_inverted phase s = po_high_inverted o /\
  low_inverted phase s = po_low_inverted o.
Proof. intros <-. repeat split. Qed.

(** C2: in a state reached after initialisation at 72 MHz, for an
    external duty code of the external resolution (any [uint16_t] value
    when that resolution is 16 bits), [motor_pwm_compute_pwm_val] never
    fails, leaves the state alone, and its result lies between half-top
    and [pwm_max], hence at most top. *)
Theorem compute_pwm_val_in_range cfg s duty :
  STM32_TIMCLK1 cfg = 72000000 ->
  reachable cfg s ->
  PWM_TRUE_RESOLUTION <= MOTOR_PWM_DUTY_CYCLE_RESOLUTION cfg
                      < PWM_TRUE_RESOLUTION + 32 ->
  CInt.in_uint16 duty ->
  duty < 2 ^ MOTOR_PWM_DUTY_CYCLE_RESOLUTION cfg ->
  exists v,
    motor_pwm_compute_pwm_val cfg duty s = Ok v s [] /\
    PWM_HALF_TOP <= normalized_duty_cycle v <= _pwm_max s /\
    _pwm_max s < PWM_TOP /\
    normalized_duty_cycle v <= PWM_TOP.
Proof.
  intros Hf Hr Hres Hd16 Hd.
  destruct (reachable_limits cfg s Hf Hr) as [Hmax _].
  destruct (compute_pwm_val_run cfg s duty Hmax Hres) as (n & E & _ & Hn).
  { unfold CInt.in_uint16 in Hd16. lia. }
  exists (mkPwmVal n). cbn [normalized_duty_cycle]. rewrite Hmax.
  change PWM_TOP with 1023.
  repeat split; try lia. exact E.
Qed.

Lemma compute_pwm_val_in_range_witness :
  exists v,
    motor_pwm_compute_pwm_val (example_config false) 65535 initialised_state
    = Ok v initialised_state [] /\
    PWM_HALF_TOP <= normalized_duty_cycle v <= _pwm_max initialised_state /\
    _pwm_max initialised_state < PWM_TOP /\
    normalized_duty_cycle v <= PWM_TOP.
Proof.
  apply (compute_pwm_val_in_range (example_config false) initialised_state 65535).
  - reflexivity.
  - initialised_reachable.
  - vm_compute. split; [discriminate | reflexivity].
  - vm_compute. split; [discriminate | reflexivity].
  - reflexivity.
Defined.

(** The dead-time rule for any dead time between 1 and half-top. *)
Lemma phase_set_dead_time_rule_gen cfg s phase inverted d :
  0 <= phase <= 2 ->
  CInt.in_uint16 d ->
  0 < _pwm_dead_time_ticks s <= PWM_HALF_TOP ->
  exists s' tr high low,
    phase_set_i cfg phase (mkPwmVal d) inverted s = Ok tt s' tr /\
    compare_high phase s' = Some high /\
    compare_low phase s' = Some low /\
    exactly_one_shifted d (_pwm_dead_time_ticks s) high low /\
    spec_rule_table inverted d (_pwm_dead_time_ticks s) high low.
Proof.
  intros Hphase Hd Hdt. unfold CInt.in_uint16 in Hd.
  destruct (phase_set_i_output cfg s phase inverted d Hphase)
    as (s' & tr & E & Ho & _).
  apply phase_output_fields in Ho. destruct Ho as (Hh & Hl & _).
  set (dt := _pwm_dead_time_ticks s) in *.
  cbn [phase_set_output po_high po_low] in Hh, Hl.
  exists s', tr. do 2 eexists.
  split; [exact E|]. split; [exact Hh|]. split; [exact Hl|].
  unfold exactly_one_shifted, spec_rule_table, duty_cycle_pair.
  change PWM_HALF_TOP with 512 in *.
  destruct inverted; destruct (Z.gtb_spec d 512); cbn [fst snd];
    rewrite ?(to_uint32_small (d - dt)), ?(to_uint32_small (d + dt)) by lia;
    rewrite ?(to_uint16_small (d - dt)), ?(to_uint16_small (d + dt)),
      ?(to_uint16_small d) by lia;
    lia.
Qed.

(** C1: in a state reached after initialisation at 72 MHz, for every
    phase in 0..2, every inverted flag and every normalised duty [d]
    (a [uint16_t]), [phase_set_i] returns; afterwards exactly one of the
    high and low compare values differs from [d], by exactly the dead
    time, the other equals [d], and side and direction are those of the
    four-case rule table. *)
Theorem phase_set_dead_time_rule cfg s phase inverted d :
  STM32_TIMCLK1 cfg = 72000000 ->
  reachable cfg s ->
  0 <= phase <= 2 ->
  CInt.in_uint16 d ->
  exists s' tr high low,
    phase_set_i cfg phase (mkPwmVal d) inverted s = Ok tt s' tr /\
    compare_high phase s' = Some high /\
    compare_low phase s' = Some low /\
    exactly_one_shifted d (_pwm_dead_time_ticks s) high low /\
    spec_rule_table inverted d (_pwm_dead_time_ticks s) high low.
Proof.
  intros Hf Hr Hphase Hd.
  destruct (reachable_limits cfg s Hf Hr) as [_ Hdt].
  apply phase_set_dead_time_rule_gen; try assumption.
  rewrite Hdt. change PWM_HALF_TOP with 512. lia.
Qed.

Lemma phase_set_dead_time_rule_witness :
  exists s' tr high low,
    phase_set_i (example_config false) 0 (mkPwmVal 700) false initialised_state
    = Ok tt s' tr /\
    compare_high 0 s' = Some high /\
    compare_low 0 s' = Some low /\
    exactly_one_shifted 700 (_pwm_dead_time_ticks initialised_state) high low /\
    spec_rule_table false 700 (_pwm_dead_time_ticks initialised_state) high low.
Proof.
  apply (phase_set_dead_time_rule (example_config false) initialised_state 0
           false 700).
  - reflexivity.
  - initialised_reachable.
  - lia.
  - vm_compute. split; [discriminate | reflexivity].
Defined.

(** C9: in a state reached after initialisation at 72 MHz the dead time
    is 28 ticks, which is at most half_top - (top - pwm_max); for every
    phase in 0..2, every inverted flag and every normalised duty [d] with
    half_top <= d <= pwm_max, both compare values written by
    [phase_set_i] lie in [0, top]: the subtraction does not go below zero,
    the addition does not exceed top, and the stored values are the exact
    differences and sums, without wrap-around. *)
Theorem phase_set_no_wraparound cfg s phase inverted d :
  STM32_TIMCLK1 cfg = 72000000 ->
  reachable cfg s ->
  0 <= phase <= 2 ->
  PWM_HALF_TOP <= d <= _pwm_max s ->
  _pwm_dead_time_ticks s = 28 /\
  _pwm_dead_time_ticks s <= PWM_HALF_TOP - (PWM_TOP - _pwm_max s) /\
  exists s' tr high low,
    phase_set_i cfg phase (mkPwmVal d) inverted s = Ok tt s' tr /\
    compare_high phase s' = Some high /\
    compare_low phase s' = Some low /\
    0 <= high <= PWM_TOP /\
    0 <= low <= PWM_TOP /\
    (PWM_HALF_TOP < d ->
       0 <= d - _pwm_dead_time_ticks s /\
       (if inverted then low else high) = d - _pwm_dead_time_ticks s /\
       (if inverted then high else low) = d) /\
    (d <= PWM_HALF_TOP ->
       d + _pwm_dead_time_ticks s <= PWM_TOP /\
       (if inverted then high else low) = d + _pwm_dead_time_ticks s /\
       (if inverted then low else high) = d).
Proof.
  intros Hf Hr Hphase Hd.
  destruct (reachable_limits cfg s Hf Hr) as [Hmax Hdt].
  rewrite Hmax in *. rewrite Hdt.
  change PWM_HALF_TOP with 512 in *. change PWM_TOP with 1023.
  split; [reflexivity|]. split; [lia|].
  destruct (phase_set_i_output cfg s phase inverted d Hphase)
    as (s' & tr & E & Ho & _).
  apply phase_output_fields in Ho. destruct Ho as (Hh & Hl & _).
  rewrite Hdt in *. cbn [phase_set_output po_high po_low] in Hh, Hl.
  exists s', tr. do 2 eexists.
  split; [exact E|]. split; [exact Hh|]. split; [exact Hl|].
  unfold duty_cycle_pair. change PWM_HALF_TOP with 512.
  destruct inverted; destruct (Z.gtb_spec d 512); cbn [fst snd];
    rewrite ?(to_uint32_small (d - 28)), ?(to_uint32_small (d + 28)) by lia;
    rewrite ?(to_uint16_small (d - 28)), ?(to_uint16_small (d + 28)),
      ?(to_uint16_small d) by lia;
    lia.
Qed.

Lemma phase_set_no_wraparound_witness :
  _pwm_dead_time_ticks initialised_state = 28 /\
  _pwm_dead_time_ticks initialised_state
  <= PWM_HALF_TOP - (PWM_TOP - _pwm_max initialised_state) /\
  exists s' tr high low,
    phase_set_i (example_config false) 2 (mkPwmVal 512) true initialised_state
    = Ok tt s' tr /\
    compare_high 2 s' = Some high /\
    compare_low 2 s' = Some low /\
    0 <= high <= PWM_TOP /\
    0 <= low <= PWM_TOP /\
    (PWM_HALF_TOP < 512 ->
       0 <= 512 - _pwm_dead_time_ticks initialised_state /\
       (if true then low else high) = 512 - _pwm_dead_time_ticks initialised_state /\
       (if true then high else low) = 512) /\
    (512 <= PWM_HALF_TOP ->
       512 + _pwm_dead_time_ticks initialised_state <= PWM_TOP /\
       (if true then high else low) = 512 + _pwm_dead_time_ticks initialised_state /\
       (if true then low else high) = 512).
Proof.
  apply (phase_set_no_wraparound (example_config false) initialised_state 2
           true 512).
  - reflexivity.
  - initialised_reachable.
  - lia.
  - vm_compute. split; discriminate.
Defined.

(** ** Output modes that keep the high-side driver cycling *)

Lemma manip_high_half_run cfg s phase command n :
  0 <= phase <= 2 ->
  command = MOTOR_PWM_MANIP_HIGH \/ command = MOTOR_PWM_MANIP_HALF ->
  motor_pwm_compute_pwm_val cfg
    (CInt.to_uint16 (if manip_eqb command MOTOR_PWM_MANIP_HIGH
                     then MOTOR_PWM_DUTY_CYCLE_MAX cfg else 0)) s
  = Ok (mkPwmVal n) s [] ->
  exists s2 tr2,
    phase_set_i cfg phase (mkPwmVal n) false (set_primask true s)
    = Ok tt s2 tr2 /\
    motor_pwm_manip cfg phase command s
    = Ok tt (set_primask false s2) (EvIrqDisable :: tr2 ++ [EvIrqEnable]) /\
    phase_output_of phase s2
    = phase_set_output false n (_pwm_dead_time_ticks s).
Proof.
  intros Hphase Hcmd Hc.
  destruct (phase_set_i_output cfg (set_primask true s) phase false n Hphase)
    as (s2 & tr2 & E2 & Ho & _).
  exists s2, tr2. split; [exact E2|]. split; [|exact Ho].
  unfold motor_pwm_manip.
  assert (G : (phase <? 0) || (phase >? 2) = false).
  { apply orb_false_iff. split; lia. }
  rewrite G.
  assert (B : manip_eqb command MOTOR_PWM_MANIP_HIGH
              || manip_eqb command MOTOR_PWM_MANIP_HALF = true).
  { destruct Hcmd as [-> | ->]; reflexivity. }
  rewrite B. cbv zeta.
  rewrite (bind_Ok _ _ _ _ _ _ Hc).
  rewrite (bind_Ok _ _ s tt (set_primask true s) [EvIrqDisable] eq_refl).
  rewrite (bind_Ok _ _ _ _ _ _ E2).
  reflexivity.
Qed.

(** C7: in a state reached after initialisation at 72 MHz, for a phase
    in 0..2, [motor_pwm_manip] with DRIVE_HIGH leaves the phase with the
    same compare values and inversion bits as [phase_set_i] on the
    normalised maximum duty code with [inverted = false], and with HALF
    the same as [phase_set_i] on the normalised duty code 0, which is
    exactly half-top, the constant [PWM_HALF_TOP] = (1 << 10) / 2. *)
Theorem manip_high_half_as_phase_set cfg s phase :
  STM32_TIMCLK1 cfg = 72000000 ->
  reachable cfg s ->
  0 <= phase <= 2 ->
  PWM_TRUE_RESOLUTION <= MOTOR_PWM_DUTY_CYCLE_RESOLUTION cfg
                      < PWM_TRUE_RESOLUTION + 32 ->
  CInt.in_uint16 (MOTOR_PWM_DUTY_CYCLE_MAX cfg) ->
  MOTOR_PWM_DUTY_CYCLE_MAX cfg < 2 ^ MOTOR_PWM_DUTY_CYCLE_RESOLUTION cfg ->
  PWM_HALF_TOP = 512 /\
  (exists v s1 tr1 s2 tr2,
      motor_pwm_compute_pwm_val cfg (MOTOR_PWM_DUTY_CYCLE_MAX cfg) s
      = Ok v s [] /\
      phase_set_i cfg phase v false s = Ok tt s1 tr1 /\
      motor_pwm_manip cfg phase MOTOR_PWM_MANIP_HIGH s = Ok tt s2 tr2 /\
      phase_output_of phase s2 = phase_output_of phase s1) /\
  (exists s1 tr1 s2 tr2,
      motor_pwm_compute_pwm_val cfg 0 s = Ok (mkPwmVal PWM_HALF_TOP) s [] /\
      phase_set_i cfg phase (mkPwmVal PWM_HALF_TOP) false s = Ok tt s1 tr1 /\
      motor_pwm_manip cfg phase MOTOR_PWM_MANIP_HALF s = Ok tt s2 tr2 /\
      phase_output_of phase s2 = phase_output_of phase s1).
Proof.
  intros Hf Hr Hphase Hres Hmax16 Hmax. unfold CInt.in_uint16 in Hmax16.
  destruct (reachable_limits cfg s Hf Hr) as [Hpm _].
  assert (Hpow : 0 < 2 ^ MOTOR_PWM_DUTY_CYCLE_RESOLUTION cfg).
  { apply Z.pow_pos_nonneg; unfold PWM_TRUE_RESOLUTION in Hres; lia. }
  split; [reflexivity|]. split.
  - destruct (compute_pwm_val_run cfg s (MOTOR_PWM_DUTY_CYCLE_MAX cfg) Hpm Hres)
      as (n & Ec & _ & _); [lia|].
    destruct (phase_set_i_output cfg s phase false n Hphase)
      as (s1 & tr1 & E1 & Ho1 & _).
    destruct (manip_high_half_run cfg s phase MOTOR_PWM_MANIP_HIGH n Hphase)
      as (s2 & tr2 & _ & Em & Ho2); [left; reflexivity | |].
    { cbn [manip_eqb]. rewrite to_uint16_small by lia. exact Ec. }
    exists (mkPwmVal n), s1, tr1, (set_primask false s2),
      (EvIrqDisable :: tr2 ++ [EvIrqEnable]).
    repeat split; try assumption.
    rewrite phase_output_set_primask, Ho1, Ho2. reflexivity.
  - destruct (compute_pwm_val_run cfg s 0 Hpm Hres) as (n & Ec & Hn & _); [lia|].
    assert (n = PWM_HALF_TOP) as ->.
    { rewrite Hn, Z.shiftr_0_l. reflexivity. }
    destruct (phase_set_i_output cfg s phase false PWM_HALF_TOP Hphase)
      as (s1 & tr1 & E1 & Ho1 & _).
    destruct (manip_high_half_run cfg s phase MOTOR_PWM_MANIP_HALF PWM_HALF_TOP
                Hphase)
      as (s2 & tr2 & _ & Em & Ho2); [right; reflexivity | exact Ec |].
    exists s1, tr1, (set_primask false s2),
      (EvIrqDisable :: tr2 ++ [EvIrqEnable]).
    repeat split; try assumption.
    rewrite phase_output_set_primask, Ho1, Ho2. reflexivity.
Qed.

Lemma manip_high_half_as_phase_set_witness :
  PWM_HALF_TOP = 512 /\
  (exists v s1 tr1 s2 tr2,
      motor_pwm_compute_pwm_val (example_config false) 65535 initialised_state
      = Ok v initialised_state [] /\
      phase_set_i (example_config false) 1 v false initialised_state
      = Ok tt s1 tr1 /\
      motor_pwm_manip (example_config false) 1 MOTOR_PWM_MANIP_HIGH
        initialised_state = Ok tt s2 tr2 /\
      phase_output_of 1 s2 = phase_output_of 1 s1) /\
  (exists s1 tr1 s2 tr2,
      motor_pwm_compute_pwm_val (example_config false) 0 initialised_state
      = Ok (mkPwmVal PWM_HALF_TOP) initialised_state [] /\
      phase_set_i (example_config false) 1 (mkPwmVal PWM_HALF_TOP) false
        initialised_state = Ok tt s1 tr1 /\
      motor_pwm_manip (example_config false) 1 MOTOR_PWM_MANIP_HALF
        initialised_state = Ok tt s2 tr2 /\
      phase_output_of 1 s2 = phase_output_of 1 s1).
Proof.
  apply (manip_high_half_as_phase_set (example_config false) initialised_state 1).
  - reflexivity.
  - initialised_reachable.
  - lia.
  - vm_compute. split; [discriminate | reflexivity].
  - vm_compute. split; [discriminate | reflexivity].
  - reflexivity.
Defined.

(** ** Ordering of the stores within an update *)

(** The normaliser neither stores nor changes the state, whatever it
    returns. *)
Lemma compute_pwm_val_pure cfg duty s :
  (exists v, motor_pwm_compute_pwm_val cfg duty s = Ok v s []) \/
  (exists f, motor_pwm_compute_pwm_val cfg duty s = Err f s []).
Proof.
  unfold motor_pwm_compute_pwm_val, bind, get, ret, fail, assert. cbv zeta.
  destruct ((0 <=? _) && (_ <? 32)); [|right; eexists; reflexivity].
  destruct (NDEBUG cfg); [left; eexists; reflexivity|].
  match goal with
  | |- context [if ?a >=? PWM_HALF_TOP then _ else _] =>
      destruct (a >=? PWM_HALF_TOP); [|right; eexists; reflexivity];
      destruct (a <=? PWM_TOP); [left | right]; eexists; reflexivity
  end.
Qed.

Ltac atomicity :=
  unfold update_is_atomic; cbn [trace_of state_of];
  split; [reflexivity|]; split; [reflexivity|];
  let x := fresh "x" in
  let Hx := fresh "Hx" in
  intros x Hx; run_arith_in Hx;
  repeat match type of Hx with
    | _ \/ _ => destruct Hx as [Hx | Hx]
    | False => destruct Hx
    end;
  subst x; right; run_arith; rewrite ?to_uint16_idem; reflexivity.

Lemma phase_set_i_atomic_when_masked cfg s phase inverted d :
  0 <= phase <= 2 ->
  primask s = true ->
  update_is_atomic phase s (phase_set_i cfg phase (mkPwmVal d) inverted s).
Proof.
  intros Hphase Hm. destruct cfg as [nd f adc res mx]. destruct_state s.
  cbn in Hm. subst.
  unfold phase_set_i. cbn [normalized_duty_cycle].
  phase_cases phase; destruct nd, inverted, (d >? PWM_HALF_TOP);
    run_arith; (split; [reflexivity|]; split; [reflexivity|]);
    intros x [].
Qed.

Lemma manip_high_half_atomic cfg s phase command :
  0 <= phase <= 2 ->
  command = MOTOR_PWM_MANIP_HIGH \/ command = MOTOR_PWM_MANIP_HALF ->
  update_is_atomic phase s (motor_pwm_manip cfg phase command s).
Proof.
  intros Hphase Hcmd.
  destruct (compute_pwm_val_pure cfg
              (CInt.to_uint16 (if manip_eqb command MOTOR_PWM_MANIP_HIGH
                               then MOTOR_PWM_DUTY_CYCLE_MAX cfg else 0)) s)
    as [[[n] Hc] | [f Hc]].
  - destruct (manip_high_half_run cfg s phase command n Hphase Hcmd Hc)
      as (s2 & tr2 & E2 & Em & _).
    rewrite Em. clear Em Hc Hcmd.
    destruct cfg as [nd f adc res mx]. destruct_state s.
    unfold phase_set_i in E2. cbn [normalized_duty_cycle] in E2.
    phase_cases phase; destruct nd, (n >? PWM_HALF_TOP);
      run_arith_in E2; injection E2 as <- <-; atomicity.
  - assert (Em : motor_pwm_manip cfg phase command s = Err f s []).
    { unfold motor_pwm_manip.
      assert (G : (phase <? 0) || (phase >? 2) = false).
      { apply orb_false_iff. split; lia. }
      rewrite G.
      assert (B : manip_eqb command MOTOR_PWM_MANIP_HIGH
                  || manip_eqb command MOTOR_PWM_MANIP_HALF = true).
      { destruct Hcmd as [-> | ->]; reflexivity. }
      rewrite B. cbv zeta. rewrite (bind_Err _ _ _ _ _ _ Hc). reflexivity. }
    rewrite Em. unfold update_is_atomic. cbn [trace_of state_of].
    split; [reflexivity|]. split; [reflexivity|]. intros x [].
Qed.

(** The shutdown branch clears the two inversion bits inside a masked
    section and stores the two compare values after the section. *)
Lemma manip_low_floating_trace cfg s phase command :
  0 <= phase <= 2 ->
  command = MOTOR_PWM_MANIP_FLOATING \/ command = MOTOR_PWM_MANIP_LOW ->
  exists pol_low pol_high reg_high reg_low ccer3 ccer4 low,
    index TIM3_LOW_CCER_POL phase = Some pol_low /\
    index TIM4_HIGH_CCER_POL phase = Some pol_high /\
    index PWM_REG_HIGH phase = Some reg_high /\
    index PWM_REG_LOW phase = Some reg_low /\
    ccer3 = CInt.to_uint16 (Z.land (CCER (TIM3 s)) (Z.lnot pol_low)) /\
    ccer4 = CInt.to_uint16 (Z.land (CCER (TIM4 s)) (Z.lnot pol_high)) /\
    trace_of (motor_pwm_manip cfg phase command s)
    = [EvIrqDisable;
       EvStore (Tim3, RegCCER) ccer3; EvStore (Tim4, RegCCER) ccer4;
       EvIrqEnable;
       EvStore reg_high 0; EvStore reg_low low].
Proof.
  intros Hphase Hcmd. destruct_state s.
  phase_cases phase; destruct Hcmd as [-> | ->];
    do 7 eexists; repeat split.
Qed.

(** C8, as the code has it: [phase_set_i] entered with interrupts masked,
    and [motor_pwm_manip] with DRIVE_HIGH or HALF (which masks interrupts
    around [phase_set_i]), store the polarity bits before the compare
    values inside one masked section, and no half-updated phase is
    observable with interrupts enabled.  With FLOATING or DRIVE_LOW,
    [motor_pwm_manip] clears the two polarity bits inside one masked
    section and stores the two compare values, polarity first, after
    interrupts are enabled again. *)
Theorem update_ordering cfg s phase :
  0 <= phase <= 2 ->
  (forall inverted d,
      primask s = true ->
      update_is_atomic phase s (phase_set_i cfg phase (mkPwmVal d) inverted s)) /\
  (forall command,
      command = MOTOR_PWM_MANIP_HIGH \/ command = MOTOR_PWM_MANIP_HALF ->
      update_is_atomic phase s (motor_pwm_manip cfg phase command s)) /\
  (forall command,
      command = MOTOR_PWM_MANIP_FLOATING \/ command = MOTOR_PWM_MANIP_LOW ->
      polarity_before_compare false
        (trace_of (motor_pwm_manip cfg phase command s)) = true /\
      one_masked_section (primask s) NoStoreYet
        (filter (fun e => negb (is_compare_store e))
           (trace_of (motor_pwm_manip cfg phase command s))) = true /\
      exists reg_high reg_low ccer3 ccer4 low,
        index PWM_REG_HIGH phase = Some reg_high /\
        index PWM_REG_LOW phase = Some reg_low /\
        trace_of (motor_pwm_manip cfg phase command s)
        = [EvIrqDisable;
           EvStore (Tim3, RegCCER) ccer3; EvStore (Tim4, RegCCER) ccer4;
           EvIrqEnable;
           EvStore reg_high 0; EvStore reg_low low]).
Proof.
  intros Hphase. split; [|split].
  - intros inverted d Hm. apply phase_set_i_atomic_when_masked; assumption.
  - intros command Hcmd. apply manip_high_half_atomic; assumption.
  - intros command Hcmd.
    destruct (manip_low_floating_trace cfg s phase command Hphase Hcmd)
      as (pl & ph & rh & rl & c3 & c4 & low & _ & _ & Hh & Hl & _ & _ & Ht).
    split; [|split].
    + rewrite Ht.
      assert (Hp : phase = 0 \/ phase = 1 \/ phase = 2) by lia.
      destruct Hp as [-> | [-> | ->]];
        injection Hh as <-; injection Hl as <-; reflexivity.
    + rewrite Ht.
      assert (Hp : phase = 0 \/ phase = 1 \/ phase = 2) by lia.
      destruct Hp as [-> | [-> | ->]];
        injection Hh as <-; injection Hl as <-; reflexivity.
    + exists rh, rl, c3, c4, low. repeat split; assumption.
Qed.

Lemma update_ordering_witness :
  (forall inverted d,
      primask (set_primask true driven_state) = true ->
      update_is_atomic 0 (set_primask true driven_state)
        (phase_set_i (example_config false) 0 (mkPwmVal d) inverted
           (set_primask true driven_state))) /\
  (forall command,
      command = MOTOR_PWM_MANIP_HIGH \/ command = MOTOR_PWM_MANIP_HALF ->
      update_is_atomic 0 (set_primask true driven_state)
        (motor_pwm_manip (example_config false) 0 command
           (set_primask true driven_state))) /\
  (forall command,
      command = MOTOR_PWM_MANIP_FLOATING \/ command = MOTOR_PWM_MANIP_LOW ->
      polarity_before_compare false
        (trace_of (motor_pwm_manip (example_config false) 0 command
                     (set_primask true driven_state))) = true /\
      one_masked_section (primask (set_primask true driven_state)) NoStoreYet
        (filter (fun e => negb (is_compare_store e))
           (trace_of (motor_pwm_manip (example_config false) 0 command
                        (set_primask true driven_state)))) = true /\
      exists reg_high reg_low ccer3 ccer4 low,
        index PWM_REG_HIGH 0 = Some reg_high /\
        index PWM_REG_LOW 0 = Some reg_low /\
        trace_of (motor_pwm_manip (example_config false) 0 command
                    (set_primask true driven_state))
        = [EvIrqDisable;
           EvStore (Tim3, RegCCER) ccer3; EvStore (Tim4, RegCCER) ccer4;
           EvIrqEnable;
           EvStore reg_high 0; EvStore reg_low low]).
Proof.
  apply (update_ordering (example_config false)
           (set_primask true driven_state) 0).
  lia.
Defined.

(** C8 as stated fails on the shutdown branch: taking phase 0 from drive
    to FLOATING, the compare values are stored after interrupts are
    enabled again, so the update is not confined to one masked section,
    and a state with the new polarity but the old compare values is
    observable. *)
Lemma floating_update_not_atomic :
  ~ update_is_atomic 0 driven_state
      (motor_pwm_manip (example_config false) 0 MOTOR_PWM_MANIP_FLOATING
         driven_state).
Proof.
  intros (Hsection & _ & _). vm_compute in Hsection. discriminate.
Qed.

(** The half-updated state of that run, seen with interrupts enabled:
    inversion already cleared on both sides, compare values still those
    of the drive. *)
Lemma floating_update_half_applied :
  let o := motor_pwm_manip (example_config false) 0 MOTOR_PWM_MANIP_FLOATING
             driven_state in
  phase_output_of 0 driven_state
  = mkPhaseOutput (Some 984) (Some 1012) (Some false) (Some true) /\
  phase_output_of 0 (state_of o) = floating /\
  exists x,
    In x (observable_states driven_state (trace_of o)) /\
    primask x = false /\
    phase_output_of 0 x
    = mkPhaseOutput (Some 984) (Some 1012) (Some false) (Some false) /\
  ~ no_half_applied 0 driven_state (trace_of o) (state_of o).
Proof.
  cbv zeta. split; [reflexivity|]. split; [reflexivity|].
  eexists. split; [left; reflexivity|].
  split; [reflexivity|]. split; [reflexivity|].
  intros H.
  destruct (H _ (or_introl eq_refl)) as [E | E]; vm_compute in E; discriminate.
Qed.

(** ** Worked examples *)

Example initialised_state_value :
  initialised_state
  = mkState (mkTIM 0x1111 0 0 0 0) (mkTIM 0x1111 0 0 0 512) 1012 28 false.
Proof. vm_compute. reflexivity. Qed.

(** Zero, mid-scale and full-scale duty codes; the last one is clamped. *)
Example compute_pwm_val_examples :
  motor_pwm_compute_pwm_val (example_config false) 0 initialised_state
  = Ok (mkPwmVal 512) initialised_state [] /\
  motor_pwm_compute_pwm_val (example_config false) 32768 initialised_state
  = Ok (mkPwmVal 768) initialised_state [] /\
  motor_pwm_compute_pwm_val (example_config false) 65535 initialised_state
  = Ok (mkPwmVal 1012) initialised_state [].
Proof. repeat split. Qed.

(** End to end, on phase 0 without inversion: above half-top the high
    side is shortened, at half-top the low side is lengthened. *)
Example phase_set_i_examples :
  phase_output_of 0
    (state_of (phase_set_i (example_config false) 0 (mkPwmVal 768) false
                 initialised_state))
  = mkPhaseOutput (Some 740) (Some 768) (Some false) (Some true) /\
  phase_output_of 0
    (state_of (phase_set_i (example_config false) 0 (mkPwmVal 512) false
                 initialised_state))
  = mkPhaseOutput (Some 512) (Some 540) (Some false) (Some true).
Proof. split; vm_compute; reflexivity. Qed.

(** Before initialisation the limits are zero: the normaliser clamps to 0
    and trips its own check, and [phase_set_i] shifts neither side. *)
Example uninitialised_module :
  motor_pwm_compute_pwm_val (example_config false) 0 power_on_state
  = Err AssertionFailed power_on_state [] /\
  phase_output_of 0
    (state_of (phase_set_i (example_config false) 0 (mkPwmVal 768) false
                 power_on_state))
  = mkPhaseOutput (Some 768) (Some 768) (Some false) (Some true).
Proof. split; vm_compute; reflexivity. Qed.

(** * Further properties of the driver *)

(** Reads polarity and enable bits through the stores of a run. *)
Ltac bits :=
  unfold channel_enabled;
  change (CInt.to_uint16 0) with 0;
  rewrite ?to_uint16_idem;
  rewrite ?(polarity_bit _ 0), ?(polarity_bit _ 1), ?(polarity_bit _ 4),
    ?(polarity_bit _ 5), ?(polarity_bit _ 8), ?(polarity_bit _ 9),
    ?(polarity_bit _ 12), ?(polarity_bit _ 13) by lia;
  repeat first
    [ rewrite (testbit_clear _ 1) by lia | rewrite (testbit_clear _ 5) by lia
    | rewrite (testbit_clear _ 9) by lia | rewrite (testbit_clear _ 13) by lia
    | rewrite (testbit_set _ 1) by lia | rewrite (testbit_set _ 5) by lia
    | rewrite (testbit_set _ 9) by lia | rewrite (testbit_set _ 13) by lia ];
  cbn [Z.eqb Pos.eqb negb andb orb];
  rewrite ?andb_false_r, ?andb_true_r, ?orb_true_r, ?orb_false_r;
  try reflexivity.

Ltac two_phases p q :=
  phase_cases p; phase_cases q; try lia.

(** ** Independence of the phases *)

Lemma phase_set_i_frame_along cfg s p q inverted d :
  0 <= p <= 2 -> 0 <= q <= 2 -> p <> q ->
  Forall (fun x => phase_output_of q x = phase_output_of q s)
    (states_along s (trace_of (phase_set_i cfg p (mkPwmVal d) inverted s))).
Proof.
  intros Hp Hq Hpq. destruct cfg as [nd f adc res mx]. destruct_state s.
  unfold phase_set_i. cbn [normalized_duty_cycle].
  two_phases p q; destruct nd, inverted, (d >? PWM_HALF_TOP);
    run_arith; repeat constructor; bits.
Qed.

Lemma manip_frame_along cfg s p q command :
  0 <= p <= 2 -> 0 <= q <= 2 -> p <> q ->
  Forall (fun x => phase_output_of q x = phase_output_of q s)
    (states_along s (trace_of (motor_pwm_manip cfg p command s))).
Proof.
  intros Hp Hq Hpq.
  assert (Hcmd : (command = MOTOR_PWM_MANIP_HIGH \/ command = MOTOR_PWM_MANIP_HALF)
                 \/ (command = MOTOR_PWM_MANIP_FLOATING
                     \/ command = MOTOR_PWM_MANIP_LOW)).
  { destruct command; auto. }
  destruct Hcmd as [Hcmd | Hcmd].
  - destruct (compute_pwm_val_pure cfg
                (CInt.to_uint16 (if manip_eqb command MOTOR_PWM_MANIP_HIGH
                                 then MOTOR_PWM_DUTY_CYCLE_MAX cfg else 0)) s)
      as [[[n] Hc] | [f Hc]].
    + destruct (manip_high_half_run cfg s p command n Hp Hcmd Hc)
        as (s2 & tr2 & E2 & Em & _).
      rewrite Em. clear Em Hc Hcmd.
      destruct cfg as [nd f adc res mx]. destruct_state s.
      unfold phase_set_i in E2. cbn [normalized_duty_cycle] in E2.
      two_phases p q; destruct nd, (n >? PWM_HALF_TOP);
        run_arith_in E2; injection E2 as <- <-;
        run_arith; repeat constructor; bits.
    + assert (Em : motor_pwm_manip cfg p command s = Err f s []).
      { unfold motor_pwm_manip.
        assert (G : (p <? 0) || (p >? 2) = false).
        { apply orb_false_iff. split; lia. }
        rewrite G.
        assert (B : manip_eqb command MOTOR_PWM_MANIP_HIGH
                    || manip_eqb command MOTOR_PWM_MANIP_HALF = true).
        { destruct Hcmd as [-> | ->]; reflexivity. }
        rewrite B. cbv zeta. rewrite (bind_Err _ _ _ _ _ _ Hc). reflexivity. }
      rewrite Em. constructor.
  - destruct cfg as [nd f adc res mx]. destruct_state s.
    two_phases p q; destruct Hcmd as [-> | ->];
      run; repeat constructor; bits.
Qed.

Lemma replay_cons e tr s : replay (e :: tr) s = replay tr (apply_event e s).
Proof. reflexivity. Qed.

(** A property of the initial state that holds after every event of a
    trace holds of the replayed final state. *)
Lemma along_final (P : state -> Prop) tr : forall s,
  P s -> Forall P (states_along s tr) -> P (replay tr s).
Proof.
  induction tr as [|e tr IH]; intros s Hs Hall.
  - exact Hs.
  - cbn [states_along] in Hall. inversion Hall as [|x l Hx Hl]; subst.
    rewrite replay_cons. apply IH; assumption.
Qed.

(** X1: [motor_pwm_manip] on one phase, in any mode and from any state,
    leaves the compare values and inversion bits of every other phase as
    they were, after each of its stores and at the end. *)
Theorem manip_leaves_other_phases cfg s p q command :
  0 <= p <= 2 -> 0 <= q <= 2 -> p <> q ->
  phase_output_of q (state_of (motor_pwm_manip cfg p command s))
  = phase_output_of q s /\
  Forall (fun x => phase_output_of q x = phase_output_of q s)
    (states_along s (trace_of (motor_pwm_manip cfg p command s))).
Proof.
  intros Hp Hq Hpq.
  pose proof (manip_frame_along cfg s p q command Hp Hq Hpq) as Hall.
  split; [|exact Hall].
  destruct (hw_only_manip cfg p command s) as [-> _].
  apply (along_final (fun x => phase_output_of q x = phase_output_of q s));
    [reflexivity | exact Hall].
Qed.

Lemma manip_leaves_other_phases_witness :
  phase_output_of 2
    (state_of (motor_pwm_manip (example_config false) 0 MOTOR_PWM_MANIP_HIGH
                 driven_state))
  = phase_output_of 2 driven_state /\
  Forall (fun x => phase_output_of 2 x = phase_output_of 2 driven_state)
    (states_along driven_state
       (trace_of (motor_pwm_manip (example_config false) 0
                    MOTOR_PWM_MANIP_HIGH driven_state))).
Proof.
  apply (manip_leaves_other_phases (example_config false) driven_state 0 2);
    lia.
Defined.

(** X2: [phase_set_i] on one phase leaves the compare values and
    inversion bits of every other phase as they were, after each of its
    stores and at the end, whatever the duty and the inverted flag. *)
Theorem phase_set_i_leaves_other_phases cfg s p q inverted d :
  0 <= p <= 2 -> 0 <= q <= 2 -> p <> q ->
  phase_output_of q (state_of (phase_set_i cfg p (mkPwmVal d) inverted s))
  = phase_output_of q s /\
  Forall (fun x => phase_output_of q x = phase_output_of q s)
    (states_along s (trace_of (phase_set_i cfg p (mkPwmVal d) inverted s))).
Proof.
  intros Hp Hq Hpq.
  pose proof (phase_set_i_frame_along cfg s p q inverted d Hp Hq Hpq) as Hall.
  split; [|exact Hall].
  destruct (hw_only_phase_set cfg p (mkPwmVal d) inverted s) as [-> _].
  apply (along_final (fun x => phase_output_of q x = phase_output_of q s));
    [reflexivity | exact Hall].
Qed.

Lemma phase_set_i_leaves_other_phases_witness :
  phase_output_of 0
    (state_of (phase_set_i (example_config false) 1 (mkPwmVal 700) true
                 driven_state))
  = phase_output_of 0 driven_state /\
  Forall (fun x => phase_output_of 0 x = phase_output_of 0 driven_state)
    (states_along driven_state
       (trace_of (phase_set_i (example_config false) 1 (mkPwmVal 700) true
                    driven_state))).
Proof.
  apply (phase_set_i_leaves_other_phases (example_config false) driven_state
           1 0); lia.
Defined.

(** ** Polarity programmed by [phase_set_i] *)

(** X3: on a valid phase [phase_set_i] never fails, whatever the duty,
    the dead time and the prior state; it sets the inversion bit of the
    high side to [inverted] and that of the low side to its negation, so
    the two sides always end with opposite polarity; the stored compare
    values are those of the rule table reduced modulo 2^16 (the
    subtraction and the addition wrap around when the dead time is out of
    proportion); and the interrupt mask is left as found. *)
Theorem phase_set_i_polarity cfg s phase inverted d :
  0 <= phase <= 2 ->
  exists s' tr high low,
    phase_set_i cfg phase (mkPwmVal d) inverted s = Ok tt s' tr /\
    high_inverted phase s' = Some inverted /\
    low_inverted phase s' = Some (negb inverted) /\
    spec_rule_table inverted d (_pwm_dead_time_ticks s) high low /\
    compare_high phase s' = Some (high mod 2 ^ 16) /\
    compare_low phase s' = Some (low mod 2 ^ 16) /\
    primask s' = primask s.
Proof.
  intros Hphase.
  destruct (phase_set_i_output cfg s phase inverted d Hphase)
    as (s' & tr & E & Ho & Hm).
  apply phase_output_fields in Ho. destruct Ho as (Hh & Hl & Hhi & Hli).
  cbn [phase_set_output po_high po_low po_high_inverted po_low_inverted]
    in Hh, Hl, Hhi, Hli.
  assert (W : forall x, CInt.to_uint16 (CInt.to_uint32 x) = x mod 2 ^ 16).
  { intros x. unfold CInt.to_uint16, CInt.to_uint32.
    apply Z.mod_mod_divide. exists (2 ^ 16). reflexivity. }
  unfold duty_cycle_pair in Hh, Hl. unfold spec_rule_table.
  exists s', tr.
  destruct inverted, (d >? PWM_HALF_TOP); cbn [fst snd] in Hh, Hl;
    try rewrite W in Hh; try rewrite W in Hl;
    unfold CInt.to_uint16 in Hh, Hl; do 2 eexists;
    (split; [exact E|]); (split; [exact Hhi|]); (split; [exact Hli|]);
    (split; [split; reflexivity|]);
    (split; [exact Hh|]); (split; [exact Hl | exact Hm]).
Qed.

Lemma phase_set_i_polarity_witness :
  exists s' tr high low,
    phase_set_i (example_config false) 1 (mkPwmVal 600) true power_on_state
    = Ok tt s' tr /\
    high_inverted 1 s' = Some true /\
    low_inverted 1 s' = Some (negb true) /\
    spec_rule_table true 600 (_pwm_dead_time_ticks power_on_state) high low /\
    compare_high 1 s' = Some (high mod 2 ^ 16) /\
    compare_low 1 s' = Some (low mod 2 ^ 16) /\
    primask s' = primask power_on_state.
Proof.
  apply (phase_set_i_polarity (example_config false) power_on_state 1 true 600).
  lia.
Defined.

(** ** The normaliser in closed form *)

Lemma normalized_closed c :
  0 <= c <= 1023 -> 1023 - (1023 - c) / 2 = 512 + c / 2.
Proof. intros Hc. Z.to_euclidean_division_equations. lia. Qed.

Lemma shiftr_succ x n : 0 <= n -> Z.shiftr x (n + 1) = Z.shiftr x n / 2.
Proof.
  intros Hn. rewrite !Z.shiftr_div_pow2 by lia.
  rewrite Z.pow_add_r by lia. change (2 ^ 1) with 2.
  rewrite Z.div_div by (try apply Z.pow_pos_nonneg; lia). reflexivity.
Qed.

(** X4: after initialisation at 72 MHz the normalised duty of a valid
    code is [min (pwm_max, half_top + (code >> (resolution - 9)))]: only
    the top nine bits of the code count (one bit less than the timer
    resolution), and the result is clamped to [pwm_max] exactly when the
    corrected ten-bit duty is 1000 or more. *)
Theorem normaliser_closed_form cfg s duty :
  STM32_TIMCLK1 cfg = 72000000 ->
  reachable cfg s ->
  PWM_TRUE_RESOLUTION <= MOTOR_PWM_DUTY_CYCLE_RESOLUTION cfg
                      < PWM_TRUE_RESOLUTION + 32 ->
  0 <= duty < 2 ^ MOTOR_PWM_DUTY_CYCLE_RESOLUTION cfg ->
  exists v,
    motor_pwm_compute_pwm_val cfg duty s = Ok v s [] /\
    normalized_duty_cycle v
    = Z.min (_pwm_max s)
        (PWM_HALF_TOP
         + Z.shiftr duty (MOTOR_PWM_DUTY_CYCLE_RESOLUTION cfg
                          - PWM_TRUE_RESOLUTION + 1)) /\
    (normalized_duty_cycle v = _pwm_max s <->
     1000 <= Z.shiftr duty (MOTOR_PWM_DUTY_CYCLE_RESOLUTION cfg
                            - PWM_TRUE_RESOLUTION)).
Proof.
  intros Hf Hr Hres Hduty.
  destruct (reachable_limits cfg s Hf Hr) as [Hmax _].
  destruct (compute_pwm_val_run cfg s duty Hmax Hres Hduty) as (n & E & Hn & _).
  pose proof (corrected_duty_range duty _ (proj1 Hres) Hduty) as Hc.
  exists (mkPwmVal n). cbn [normalized_duty_cycle].
  rewrite Hmax, shiftr_succ by lia.
  set (c := Z.shiftr duty (MOTOR_PWM_DUTY_CYCLE_RESOLUTION cfg
                           - PWM_TRUE_RESOLUTION)) in *.
  rewrite normalized_closed in Hn by exact Hc.
  change PWM_HALF_TOP with 512.
  split; [exact E|]. split; [exact Hn|].
  rewrite Hn. Z.to_euclidean_division_equations. lia.
Qed.

Lemma normaliser_closed_form_witness :
  exists v,
    motor_pwm_compute_pwm_val (example_config false) 40000 initialised_state
    = Ok v initialised_state [] /\
    normalized_duty_cycle v
    = Z.min (_pwm_max initialised_state)
        (PWM_HALF_TOP
         + Z.shiftr 40000 (MOTOR_PWM_DUTY_CYCLE_RESOLUTION (example_config false)
                           - PWM_TRUE_RESOLUTION + 1)) /\
    (normalized_duty_cycle v = _pwm_max initialised_state <->
     1000 <= Z.shiftr 40000 (MOTOR_PWM_DUTY_CYCLE_RESOLUTION (example_config false)
                             - PWM_TRUE_RESOLUTION)).
Proof.
  apply (normaliser_closed_form (example_config false) initialised_state 40000).
  - reflexivity.
  - initialised_reachable.
  - vm_compute. split; [discriminate | reflexivity].
  - vm_compute. split; [discriminate | reflexivity].
Defined.

(** X5: after initialisation at 72 MHz the normaliser is monotone: a
    larger duty code never gives a smaller normalised duty; and two
    codes that agree above the discarded low-order bits give the same
    result. *)
Theorem normaliser_monotone cfg s duty1 duty2 :
  STM32_TIMCLK1 cfg = 72000000 ->
  reachable cfg s ->
  PWM_TRUE_RESOLUTION <= MOTOR_PWM_DUTY_CYCLE_RESOLUTION cfg
                      < PWM_TRUE_RESOLUTION + 32 ->
  0 <= duty1 ->
  duty1 <= duty2 ->
  duty2 < 2 ^ MOTOR_PWM_DUTY_CYCLE_RESOLUTION cfg ->
  exists v1 v2,
    motor_pwm_compute_pwm_val cfg duty1 s = Ok v1 s [] /\
    motor_pwm_compute_pwm_val cfg duty2 s = Ok v2 s [] /\
    normalized_duty_cycle v1 <= normalized_duty_cycle v2 /\
    (Z.shiftr duty1 (MOTOR_PWM_DUTY_CYCLE_RESOLUTION cfg - PWM_TRUE_RESOLUTION)
     = Z.shiftr duty2 (MOTOR_PWM_DUTY_CYCLE_RESOLUTION cfg - PWM_TRUE_RESOLUTION)
     -> v1 = v2).
Proof.
  intros Hf Hr Hres H1 H12 H2.
  destruct (reachable_limits cfg s Hf Hr) as [Hmax _].
  destruct (compute_pwm_val_run cfg s duty1 Hmax Hres) as (n1 & E1 & Hn1 & _);
    [lia|].
  destruct (compute_pwm_val_run cfg s duty2 Hmax Hres) as (n2 & E2 & Hn2 & _);
    [lia|].
  exists (mkPwmVal n1), (mkPwmVal n2). cbn [normalized_duty_cycle].
  split; [exact E1|]. split; [exact E2|].
  assert (Hsh : Z.shiftr duty1 (MOTOR_PWM_DUTY_CYCLE_RESOLUTION cfg
                                - PWM_TRUE_RESOLUTION)
                <= Z.shiftr duty2 (MOTOR_PWM_DUTY_CYCLE_RESOLUTION cfg
                                   - PWM_TRUE_RESOLUTION)).
  { unfold PWM_TRUE_RESOLUTION in *. rewrite !Z.shiftr_div_pow2 by lia.
    apply Z.div_le_mono; [apply Z.pow_pos_nonneg; lia | exact H12]. }
  split.
  - rewrite Hn1, Hn2. Z.to_euclidean_division_equations. lia.
  - intros Heq. rewrite Hn1, Hn2, Heq. reflexivity.
Qed.

Lemma normaliser_monotone_witness :
  exists v1 v2,
    motor_pwm_compute_pwm_val (example_config false) 1000 initialised_state
    = Ok v1 initialised_state [] /\
    motor_pwm_compute_pwm_val (example_config false) 1023 initialised_state
    = Ok v2 initialised_state [] /\
    normalized_duty_cycle v1 <= normalized_duty_cycle v2 /\
    (Z.shiftr 1000 (MOTOR_PWM_DUTY_CYCLE_RESOLUTION (example_config false)
                    - PWM_TRUE_RESOLUTION)
     = Z.shiftr 1023 (MOTOR_PWM_DUTY_CYCLE_RESOLUTION (example_config false)
                      - PWM_TRUE_RESOLUTION)
     -> v1 = v2).
Proof.
  apply (normaliser_monotone (example_config false) initialised_state 1000 1023).
  - reflexivity.
  - initialised_reachable.
  - vm_compute. split; [discriminate | reflexivity].
  - lia.
  - lia.
  - reflexivity.
Defined.

(** ** The interrupt mask across the operations *)

Lemma manip_high_half_fault cfg s phase command f :
  0 <= phase <= 2 ->
  command = MOTOR_PWM_MANIP_HIGH \/ command = MOTOR_PWM_MANIP_HALF ->
  motor_pwm_compute_pwm_val cfg
    (CInt.to_uint16 (if manip_eqb command MOTOR_PWM_MANIP_HIGH
                     then MOTOR_PWM_DUTY_CYCLE_MAX cfg else 0)) s
  = Err f s [] ->
  motor_pwm_manip cfg phase command s = Err f s [].
Proof.
  intros Hphase Hcmd Hc. unfold motor_pwm_manip.
  assert (G : (phase <? 0) || (phase >? 2) = false).
  { apply orb_false_iff. split; lia. }
  rewrite G.
  assert (B : manip_eqb command MOTOR_PWM_MANIP_HIGH
              || manip_eqb command MOTOR_PWM_MANIP_HALF = true).
  { destruct Hcmd as [-> | ->]; reflexivity. }
  rewrite B. cbv zeta. rewrite (bind_Err _ _ _ _ _ _ Hc). reflexivity.
Qed.

(** X6: on a valid phase [motor_pwm_manip] returns with interrupts
    enabled whatever the mask was on entry: called with interrupts
    masked, it unmasks them.  The FLOATING and DRIVE_LOW modes always
    return; DRIVE_HIGH and HALF can only stop inside the normaliser,
    before any store and with the state untouched. *)
Theorem manip_returns_unmasked cfg s phase command :
  0 <= phase <= 2 ->
  (forall s' tr,
      motor_pwm_manip cfg phase command s = Ok tt s' tr -> primask s' = false) /\
  (command = MOTOR_PWM_MANIP_FLOATING \/ command = MOTOR_PWM_MANIP_LOW ->
   exists s' tr, motor_pwm_manip cfg phase command s = Ok tt s' tr) /\
  (forall f s' tr,
      motor_pwm_manip cfg phase command s = Err f s' tr -> s' = s /\ tr = []).
Proof.
  intros Hphase.
  assert (Hcmd : (command = MOTOR_PWM_MANIP_HIGH \/ command = MOTOR_PWM_MANIP_HALF)
                 \/ (command = MOTOR_PWM_MANIP_FLOATING
                     \/ command = MOTOR_PWM_MANIP_LOW)).
  { destruct command; auto. }
  destruct Hcmd as [Hcmd | Hcmd].
  - destruct (compute_pwm_val_pure cfg
                (CInt.to_uint16 (if manip_eqb command MOTOR_PWM_MANIP_HIGH
                                 then MOTOR_PWM_DUTY_CYCLE_MAX cfg else 0)) s)
      as [[[n] Hc] | [f Hc]].
    + destruct (manip_high_half_run cfg s phase command n Hphase Hcmd Hc)
        as (s2 & tr2 & _ & Em & _).
      rewrite Em. split; [|split].
      * intros s' tr H. injection H as <- _. reflexivity.
      * intros [-> | ->]; destruct Hcmd; discriminate.
      * intros f s' tr H. discriminate H.
    + rewrite (manip_high_half_fault cfg s phase command f Hphase Hcmd Hc).
      split; [|split].
      * intros s' tr H. discriminate H.
      * intros [-> | ->]; destruct Hcmd; discriminate.
      * intros f' s' tr H. injection H as _ <- <-. split; reflexivity.
  - destruct cfg as [nd f adc res mx]. destruct_state s.
    phase_cases phase; destruct Hcmd as [-> | ->];
      (split;
       [ run; intros s' tr H; injection H as <- _; reflexivity
       | split;
         [ intros _; do 2 eexists; run; reflexivity
         | run; intros f' s' tr H; discriminate H ] ]).
Qed.

Lemma manip_returns_unmasked_witness :
  (forall s' tr,
      motor_pwm_manip (example_config false) 0 MOTOR_PWM_MANIP_LOW
        (set_primask true initialised_state) = Ok tt s' tr ->
      primask s' = false) /\
  (MOTOR_PWM_MANIP_LOW = MOTOR_PWM_MANIP_FLOATING
   \/ MOTOR_PWM_MANIP_LOW = MOTOR_PWM_MANIP_LOW ->
   exists s' tr,
     motor_pwm_manip (example_config false) 0 MOTOR_PWM_MANIP_LOW
       (set_primask true initialised_state) = Ok tt s' tr) /\
  (forall f s' tr,
      motor_pwm_manip (example_config false) 0 MOTOR_PWM_MANIP_LOW
        (set_primask true initialised_state) = Err f s' tr ->
      s' = set_primask true initialised_state /\ tr = []).
Proof.
  apply (manip_returns_unmasked (example_config false)
           (set_primask true initialised_state) 0 MOTOR_PWM_MANIP_LOW).
  lia.
Defined.

(** A mask change leaves the timers alone. *)
Lemma mask_event_regs e s :
  is_mask_or_store e = true ->
  is_polarity_store e || is_compare_store e = false ->
  regs_eq (apply_event e s) s /\ primask (apply_event e s) = mask_after (primask s) e.
Proof.
  destruct e as [| | b | | [t r] v | v | v]; cbn; intros H1 H2;
    try discriminate; try (split; [split|]; reflexivity).
  destruct r; discriminate.
Qed.

Lemma store_event_mask e s :
  is_polarity_store e || is_compare_store e = true ->
  primask (apply_event e s) = primask s.
Proof.
  destruct e as [| | b | | [[|] r] v | v | v]; cbn; intros H;
    try discriminate; reflexivity.
Qed.

Lemma regs_eq_trans a b c : regs_eq a b -> regs_eq b c -> regs_eq a c.
Proof. intros [H1 H2] [H3 H4]. split; congruence. Qed.

Lemma regs_eq_sym a b : regs_eq a b -> regs_eq b a.
Proof. intros [H1 H2]. split; congruence. Qed.

(** After its masked section is closed, a run stores nothing more. *)
Lemma closed_section_regs tr : forall s,
  forallb is_mask_or_store tr = true ->
  one_masked_section (primask s) SectionClosed tr = true ->
  regs_eq (replay tr s) s /\
  forall x, In x (observable_states s tr) -> regs_eq x s.
Proof.
  induction tr as [|e tr IH]; intros s Hev Hsec.
  - split; [split; reflexivity | intros x []].
  - cbn [forallb] in Hev. apply andb_prop in Hev. destruct Hev as [He Hev].
    cbn [one_masked_section] in Hsec.
    destruct (is_polarity_store e || is_compare_store e) eqn:Hst;
      [discriminate|].
    destruct (mask_event_regs e s He Hst) as [Hr Hm].
    rewrite <- Hm in Hsec.
    destruct (IH (apply_event e s) Hev Hsec) as [Hfin Hobs].
    rewrite replay_cons. split.
    + apply (regs_eq_trans _ _ _ Hfin Hr).
    + intros x Hx. cbn [observable_states] in Hx.
      apply in_app_or in Hx. destruct Hx as [Hx | Hx].
      * destruct (primask (apply_event e s)); [destruct Hx|].
        destruct Hx as [<- | []]. exact Hr.
      * apply (regs_eq_trans _ _ _ (Hobs x Hx) Hr).
Qed.

(** A run whose stores all lie in one masked section shows, with
    interrupts enabled, only the timers of its initial or of its final
    state. *)
Lemma one_section_observable tr : forall s pr,
  forallb is_mask_or_store tr = true ->
  one_masked_section (primask s) pr tr = true ->
  (pr = InSection -> primask s = true) ->
  pr <> SectionClosed ->
  forall x, In x (observable_states s tr) ->
    (pr = NoStoreYet /\ regs_eq x s) \/ regs_eq x (replay tr s).
Proof.
  induction tr as [|e tr IH]; intros s pr Hev Hsec Hin Hpr x Hx.
  - destruct Hx.
  - cbn [forallb] in Hev. apply andb_prop in Hev. destruct Hev as [He Hev].
    cbn [one_masked_section] in Hsec. cbn [observable_states] in Hx.
    rewrite replay_cons.
    assert (Hne : InSection <> SectionClosed) by discriminate.
    assert (Hne' : NoStoreYet <> SectionClosed) by discriminate.
    destruct (is_polarity_store e || is_compare_store e) eqn:Hst.
    + (* a store: interrupts are masked *)
      assert (Hmask : primask s = true /\
                      one_masked_section (primask s) InSection tr = true).
      { destruct pr; [| |contradiction];
          apply andb_prop in Hsec; destruct Hsec; split; assumption. }
      destruct Hmask as [Hm Hsec'].
      pose proof (store_event_mask e s Hst) as Hm'.
      rewrite Hm', Hm in Hx. cbn [app] in Hx.
      rewrite <- Hm' in Hsec'.
      assert (Hin' : InSection = InSection -> primask (apply_event e s) = true).
      { intros _. rewrite Hm'. exact Hm. }
      destruct (IH (apply_event e s) InSection Hev Hsec' Hin' Hne x Hx)
        as [[Habs _] | Hfin]; [discriminate | right; exact Hfin].
    + (* a mask change *)
      destruct (mask_event_regs e s He Hst) as [Hr Hm].
      rewrite <- Hm in Hsec.
      destruct pr; [| |contradiction].
      * (* no store yet *)
        apply in_app_or in Hx. destruct Hx as [Hx | Hx].
        -- destruct (primask (apply_event e s)); [destruct Hx|].
           destruct Hx as [<- | []]. left. split; [reflexivity | exact Hr].
        -- assert (Hin' : NoStoreYet = InSection ->
                          primask (apply_event e s) = true) by discriminate.
           destruct (IH (apply_event e s) NoStoreYet Hev Hsec Hin' Hne' x Hx)
             as [[_ H] | H].
           ++ left. split; [reflexivity | apply (regs_eq_trans _ _ _ H Hr)].
           ++ right. exact H.
      * (* inside the section *)
        destruct (primask (apply_event e s)) eqn:Hp.
        -- cbn [app] in Hx.
           assert (Hin' : InSection = InSection ->
                          primask (apply_event e s) = true).
           { intros _. exact Hp. }
           assert (Hsec' : one_masked_section (primask (apply_event e s))
                             InSection tr = true)
             by (rewrite Hp; exact Hsec).
           destruct (IH (apply_event e s) InSection Hev Hsec' Hin' Hne x Hx)
             as [[Habs _] | H]; [discriminate | right; exact H].
        -- assert (Hsec' : one_masked_section (primask (apply_event e s))
                             SectionClosed tr = true)
             by (rewrite Hp; exact Hsec).
           destruct (closed_section_regs tr (apply_event e s) Hev Hsec')
             as [Hfin Hobs].
           right. cbn [app] in Hx. destruct Hx as [<- | Hx].
           ++ apply regs_eq_sym. exact Hfin.
           ++ apply (regs_eq_trans _ _ _ (Hobs x Hx)). apply regs_eq_sym.
              exact Hfin.
Qed.

(** X7: [motor_pwm_emergency] always returns, keeps the interrupt mask
    of its caller, and performs all its stores inside one masked section:
    with interrupts enabled, a state of the run shows the timers either
    as they were before the call or as they are after it, never in
    between. *)
Theorem emergency_is_masked (s : state) :
  exists s' tr,
    motor_pwm_emergency s = Ok tt s' tr /\
    primask s' = primask s /\
    one_masked_section (primask s) NoStoreYet tr = true /\
    forall x, In x (observable_states s tr) -> regs_eq x s \/ regs_eq x s'.
Proof.
  destruct (motor_pwm_emergency s) as [[] s' tr | f s' tr] eqn:E.
  - exists s', tr.
    destruct (hw_only_emergency s) as [Hrep _]. rewrite E in Hrep.
    cbn [state_of trace_of] in Hrep.
    assert (Hshape : primask s' = primask s /\
                     forallb is_mask_or_store tr = true /\
                     one_masked_section (primask s) NoStoreYet tr = true).
    { revert E. destruct_state s. run. intros E. injection E as <- <-.
      repeat split. }
    destruct Hshape as (Hm & Hev & Hsec).
    split; [reflexivity|]. split; [exact Hm|]. split; [exact Hsec|].
    intros x Hx.
    assert (Hin : NoStoreYet = InSection -> primask s = true) by discriminate.
    assert (Hne : NoStoreYet <> SectionClosed) by discriminate.
    destruct (one_section_observable tr s NoStoreYet Hev Hsec Hin Hne x Hx)
      as [[_ H] | H]; [left; exact H | right; rewrite Hrep; exact H].
  - exfalso. revert E. destruct_state s. run. discriminate.
Qed.

(** X8: [motor_pwm_set_freewheeling] and [motor_pwm_emergency] leave the
    two timers in the same state, from any prior state; they differ only
    in the interrupt mask, which the first leaves enabled and the second
    leaves as found. *)
Theorem freewheeling_same_registers_as_emergency cfg (s : state) :
  exists s1 tr1 s2 tr2,
    motor_pwm_set_freewheeling cfg s = Ok tt s1 tr1 /\
    motor_pwm_emergency s = Ok tt s2 tr2 /\
    TIM3 s1 = TIM3 s2 /\ TIM4 s1 = TIM4 s2 /\
    _pwm_max s1 = _pwm_max s2 /\
    _pwm_dead_time_ticks s1 = _pwm_dead_time_ticks s2 /\
    primask s1 = false /\ primask s2 = primask s.
Proof.
  destruct_state s. do 4 eexists.
  split; [run; reflexivity|]. split; [run; reflexivity|].
  repeat split.
Qed.

(** ** What the phase operations leave alone *)

(** X9: apart from [motor_pwm_init], no operation assigns the limits:
    [pwm_max] and the dead time are the same after the normaliser,
    [phase_set_i], [motor_pwm_manip], [motor_pwm_set_freewheeling] and
    [motor_pwm_emergency] as before, whether the operation returns or
    stops at a check. *)
Theorem operations_keep_limits cfg s :
  (forall duty,
      limits (state_of (motor_pwm_compute_pwm_val cfg duty s)) = limits s) /\
  (forall phase v inverted,
      limits (state_of (phase_set_i cfg phase v inverted s)) = limits s) /\
  (forall phase command,
      limits (state_of (motor_pwm_manip cfg phase command s)) = limits s) /\
  limits (state_of (motor_pwm_set_freewheeling cfg s)) = limits s /\
  limits (state_of (motor_pwm_emergency s)) = limits s.
Proof.
  unfold limits.
  repeat split; intros;
    match goal with
    | |- (_pwm_max (state_of (?m s)), _) = _ =>
        let H := fresh in
        assert (H : hw_only m)
          by first [ apply hw_only_compute | apply hw_only_phase_set
                   | apply hw_only_manip | apply hw_only_freewheeling
                   | apply hw_only_emergency ];
        destruct (hw_only_limits m s H) as [-> ->]; reflexivity
    end.
Qed.

Ltac same_config :=
  unfold same_configuration;
  split; [| split; reflexivity];
  let mask := fresh "mask" in
  let Hm := fresh "Hm" in
  intros mask Hm; cbn [In] in Hm;
  repeat match type of Hm with
    | _ \/ _ => destruct Hm as [<- | Hm]
    | False => destruct Hm
    end;
  split; cbv [TIM_CCER_CC1E TIM_CCER_CC2E TIM_CCER_CC3E TIM_CCER_CC4E
              TIM3 TIM4 CCER];
  bits.

Lemma same_configuration_refl s : same_configuration s s.
Proof. split; [intros mask _; split; reflexivity | split; reflexivity]. Qed.

Lemma same_configuration_set_primask b s s' :
  same_configuration s s' -> same_configuration s (set_primask b s').
Proof. intros H. exact H. Qed.

Lemma phase_set_i_same_configuration cfg s phase inverted d s' tr :
  phase_set_i cfg phase (mkPwmVal d) inverted s = Ok tt s' tr ->
  same_configuration s s'.
Proof.
  destruct cfg as [nd f adc res mx]. destruct_state s.
  unfold phase_set_i. cbn [normalized_duty_cycle].
  assert (Hrange : phase < 0 \/ 0 <= phase <= 2 \/ 3 <= phase) by lia.
  destruct Hrange as [Hneg | [Hin | Hge]].
  - (* negative index *)
    destruct phase as [|p|p]; try lia.
    destruct nd, inverted; run_arith; discriminate.
  - phase_cases phase; destruct nd, inverted, (d >? PWM_HALF_TOP);
      run_arith; intros E; injection E as <- _; same_config.
  - (* index past the tables *)
    assert (Hidx : forall A (tbl : list A),
               length tbl = 3%nat -> index tbl phase = None).
    { intros A tbl Hlen. unfold index.
      destruct (Z.ltb_spec phase 0); [reflexivity|].
      apply nth_error_None. rewrite Hlen. lia. }
    assert (Hguard : (0 <=? phase) && (phase <? 3) = false).
    { apply andb_false_iff. right. lia. }
    rewrite Hguard. unfold bind, assert, array_get, NDEBUG.
    rewrite !Hidx by reflexivity.
    destruct nd, inverted; cbn; discriminate.
Qed.

Lemma manip_same_configuration cfg s phase command :
  same_configuration s (state_of (motor_pwm_manip cfg phase command s)).
Proof.
  assert (Hrange : (phase < 0 \/ 2 < phase) \/ 0 <= phase <= 2) by lia.
  destruct Hrange as [Hout | Hin].
  - (* invalid phase: early return *)
    unfold motor_pwm_manip.
    assert (E : (phase <? 0) || (phase >? 2) = true).
    { apply orb_true_iff. destruct Hout; [left | right]; lia. }
    rewrite E. unfold bind, assert.
    destruct (NDEBUG cfg); apply same_configuration_refl.
  - assert (Hcmd : (command = MOTOR_PWM_MANIP_HIGH
                    \/ command = MOTOR_PWM_MANIP_HALF)
                   \/ (command = MOTOR_PWM_MANIP_FLOATING
                       \/ command = MOTOR_PWM_MANIP_LOW)).
    { destruct command; auto. }
    destruct Hcmd as [Hcmd | Hcmd].
    + destruct (compute_pwm_val_pure cfg
                  (CInt.to_uint16 (if manip_eqb command MOTOR_PWM_MANIP_HIGH
                                   then MOTOR_PWM_DUTY_CYCLE_MAX cfg else 0)) s)
        as [[[n] Hc] | [f Hc]].
      * destruct (manip_high_half_run cfg s phase command n Hin Hcmd Hc)
          as (s2 & tr2 & E2 & Em & _).
        rewrite Em. cbn [state_of].
        apply same_configuration_set_primask.
        exact (phase_set_i_same_configuration _ _ _ _ _ _ _ E2).
      * rewrite (manip_high_half_fault cfg s phase command f Hin Hcmd Hc).
        apply same_configuration_refl.
    + destruct cfg as [nd f adc res mx]. destruct_state s.
      phase_cases phase; destruct Hcmd as [-> | ->]; run; same_config.
Qed.

Lemma freewheeling_same_configuration cfg s :
  same_configuration s (state_of (motor_pwm_set_freewheeling cfg s)).
Proof. destruct_state s. run. same_config. Qed.

Lemma emergency_same_configuration s :
  same_configuration s (state_of (motor_pwm_emergency s)).
Proof. destruct_state s. run. same_config. Qed.

(** X10: the phase operations never change the channel-enable bits of
    the two [CCER] words, the ADC trigger compare [TIM4->CCR4] or
    [TIM3->CCR1], from any state: [phase_set_i] on a valid phase,
    [motor_pwm_manip] on any phase index and in any mode,
    [motor_pwm_set_freewheeling] and [motor_pwm_emergency]. *)
Theorem operations_keep_configuration cfg s :
  (forall phase inverted d,
      0 <= phase <= 2 ->
      same_configuration s
        (state_of (phase_set_i cfg phase (mkPwmVal d) inverted s))) /\
  (forall phase command,
      same_configuration s (state_of (motor_pwm_manip cfg phase command s))) /\
  same_configuration s (state_of (motor_pwm_set_freewheeling cfg s)) /\
  same_configuration s (state_of (motor_pwm_emergency s)).
Proof.
  split; [|split; [|split]].
  - intros phase inverted d Hphase.
    destruct (phase_set_i_output cfg s phase inverted d Hphase)
      as (s' & tr & E & _).
    rewrite E. exact (phase_set_i_same_configuration _ _ _ _ _ _ _ E).
  - intros phase command. apply manip_same_configuration.
  - apply freewheeling_same_configuration.
  - apply emergency_same_configuration.
Qed.

(** ** Initialisation from any state and in any configuration *)

(** Names the floating-point checks and casts of a goal, so that a run
    can be executed with their results left symbolic. *)
Ltac name_floats :=
  cbv zeta;
  repeat match goal with
    | |- context [assert_always ?b] =>
        assert_fails (is_var b);
        let x := fresh "check" in set (x := b) in *; clearbody x
    | |- context [F32.to_uint16 ?f] =>
        let x := fresh "cast" in set (x := F32.to_uint16 f) in *; clearbody x
    end.

Ltac run_opaque :=
  cbv -[Z.land Z.lor Z.lnot Z.div CInt.to_uint16 CInt.to_uint32].

(** Takes the named checks in program order; a failed one ends the run. *)
Ltac prune_checks :=
  repeat match goal with
    | b : bool |- _ =>
        destruct b; [| solve [run_opaque; intros; discriminate]]
    | o : option Z |- _ =>
        destruct o; [| solve [run_opaque; intros; discriminate]]
    end.

Lemma init_final_registers cfg s s' tr :
  motor_pwm_init cfg s = Ok tt s' tr ->
  exists ticks,
    F32.to_uint16 (nanosec_to_ticks_float (STM32_TIMCLK1 cfg)
                     (MOTOR_ADC_SYNC_ADVANCE_NANOSEC cfg)) = Some ticks /\
    TIM3 s' = mkTIM 0x1111 0 0 0 0 /\
    TIM4 s' = mkTIM 0x1111 0 0 0 (CInt.to_uint16 (PWM_HALF_TOP - ticks)) /\
    primask s' = false.
Proof.
  unfold motor_pwm_init, init_timers, nanosec_to_ticks_float,
    PWM_TIMER_FREQUENCY.
  name_floats. prune_checks.
  destruct_state s. run_opaque. intros E. injection E as <- _.
  eexists. split; [reflexivity|]. repeat split.
Qed.

(** X11: in any configuration and from any state, when [motor_pwm_init]
    returns the bridge is idle: the three phases are floating, both
    [CCER] words hold the four channel enables and no inversion
    (0x1111), the compare registers are zero except the ADC trigger
    [TIM4->CCR4] = half-top minus the advance in ticks, and interrupts
    are enabled. *)
Theorem init_ends_idle cfg s s' tr :
  motor_pwm_init cfg s = Ok tt s' tr ->
  phase_output_of 0 s' = floating /\
  phase_output_of 1 s' = floating /\
  phase_output_of 2 s' = floating /\
  channels_enabled s' /\
  primask s' = false /\
  exists ticks,
    F32.to_uint16 (nanosec_to_ticks_float (STM32_TIMCLK1 cfg)
                     (MOTOR_ADC_SYNC_ADVANCE_NANOSEC cfg)) = Some ticks /\
    TIM3 s' = mkTIM 0x1111 0 0 0 0 /\
    TIM4 s' = mkTIM 0x1111 0 0 0 (CInt.to_uint16 (PWM_HALF_TOP - ticks)).
Proof.
  intros H.
  destruct (init_final_registers cfg s s' tr H) as (ticks & Hc & H3 & H4 & Hm).
  destruct s' as [t3 t4 pm dt m]. cbn in H3, H4, Hm. subst.
  split; [reflexivity|]. split; [reflexivity|]. split; [reflexivity|].
  split.
  - intros mask Hmask. cbn [In] in Hmask.
    repeat match type of Hmask with
      | _ \/ _ => destruct Hmask as [<- | Hmask]
      | False => destruct Hmask
      end; split; reflexivity.
  - split; [reflexivity|]. exists ticks. repeat split. exact Hc.
Qed.

Lemma init_ends_idle_witness :
  phase_output_of 0 initialised_state = floating /\
  phase_output_of 1 initialised_state = floating /\
  phase_output_of 2 initialised_state = floating /\
  channels_enabled initialised_state /\
  primask initialised_state = false /\
  exists ticks,
    F32.to_uint16
      (nanosec_to_ticks_float (STM32_TIMCLK1 (example_config false))
         (MOTOR_ADC_SYNC_ADVANCE_NANOSEC (example_config false))) = Some ticks /\
    TIM3 initialised_state = mkTIM 0x1111 0 0 0 0 /\
    TIM4 initialised_state
    = mkTIM 0x1111 0 0 0 (CInt.to_uint16 (PWM_HALF_TOP - ticks)).
Proof.
  apply (init_ends_idle (example_config false) driven_state initialised_state
           (trace_of (motor_pwm_init (example_config false) driven_state))).
  vm_compute. reflexivity.
Defined.

(** X12: [motor_pwm_init] is a full reset: in any configuration, a run
    that returns ends in the same state, after the same stores, whatever
    the state it started from. *)
Theorem init_is_full_reset cfg s1 s2 s' tr :
  motor_pwm_init cfg s1 = Ok tt s' tr ->
  motor_pwm_init cfg s2 = Ok tt s' tr.
Proof.
  unfold motor_pwm_init, init_timers, PWM_TIMER_FREQUENCY.
  name_floats. prune_checks.
  destruct_state s1. destruct_state s2.
  run_opaque. intros E. injection E as <- <-. reflexivity.
Qed.

Lemma init_is_full_reset_witness :
  motor_pwm_init (example_config false) driven_state
  = Ok tt initialised_state
      (trace_of (motor_pwm_init (example_config false) power_on_state)).
Proof.
  apply (init_is_full_reset (example_config false) power_on_state driven_state).
  vm_compute. reflexivity.
Defined.

(** ** Invariants of the reachable states *)

Lemma same_configuration_channels s s' :
  same_configuration s s' -> channels_enabled s -> channels_enabled s'.
Proof.
  intros [Hen _] Hs mask Hmask.
  destruct (Hen mask Hmask) as [-> ->]. exact (Hs mask Hmask).
Qed.

(** X13: in every state reachable after initialisation, in any
    configuration, all four output channels of both timers are enabled,
    the ADC trigger compare [TIM4->CCR4] still holds half-top minus the
    advance in ticks programmed by the bring-up, and [TIM3->CCR1] is
    zero. *)
Theorem reachable_configuration cfg s :
  reachable cfg s ->
  channels_enabled s /\
  CCR1 (TIM3 s) = 0 /\
  exists ticks,
    F32.to_uint16 (nanosec_to_ticks_float (STM32_TIMCLK1 cfg)
                     (MOTOR_ADC_SYNC_ADVANCE_NANOSEC cfg)) = Some ticks /\
    CCR4 (TIM4 s) = CInt.to_uint16 (PWM_HALF_TOP - ticks).
Proof.
  intros Hr.
  assert (Hstep : forall s0 s1,
             same_configuration s0 s1 ->
             (channels_enabled s0 /\
              CCR1 (TIM3 s0) = 0 /\
              exists ticks,
                F32.to_uint16 (nanosec_to_ticks_float (STM32_TIMCLK1 cfg)
                                 (MOTOR_ADC_SYNC_ADVANCE_NANOSEC cfg))
                = Some ticks /\
                CCR4 (TIM4 s0) = CInt.to_uint16 (PWM_HALF_TOP - ticks)) ->
             channels_enabled s1 /\
             CCR1 (TIM3 s1) = 0 /\
             exists ticks,
               F32.to_uint16 (nanosec_to_ticks_float (STM32_TIMCLK1 cfg)
                                (MOTOR_ADC_SYNC_ADVANCE_NANOSEC cfg))
               = Some ticks /\
               CCR4 (TIM4 s1) = CInt.to_uint16 (PWM_HALF_TOP - ticks)).
  { intros s0 s1 Hsame (Hch & H1 & ticks & Hc & H4).
    split; [exact (same_configuration_channels _ _ Hsame Hch)|].
    destruct Hsame as (_ & E4 & E1).
    split; [congruence|]. exists ticks. split; [exact Hc | congruence]. }
  induction Hr as [s s' tr Hi
                  | s phase command s' tr _ IH H
                  | s phase v inverted s' tr _ IH H
                  | s duty v s' tr _ IH H
                  | s s' tr _ IH H
                  | s s' tr _ IH H
                  | s b _ IH].
  - destruct (init_final_registers cfg s s' tr Hi) as (ticks & Hc & H3 & H4 & _).
    split; [|split].
    + intros mask Hmask. rewrite H3, H4. cbn [In] in Hmask.
      repeat match type of Hmask with
        | _ \/ _ => destruct Hmask as [<- | Hmask]
        | False => destruct Hmask
        end; split; reflexivity.
    + rewrite H3. reflexivity.
    + exists ticks. rewrite H4. split; [exact Hc | reflexivity].
  - apply (Hstep s); [|exact IH].
    pose proof (manip_same_configuration cfg s phase command) as Hs.
    rewrite H in Hs. exact Hs.
  - apply (Hstep s); [|exact IH]. destruct v as [d].
    exact (phase_set_i_same_configuration _ _ _ _ _ _ _ H).
  - destruct (compute_pwm_val_pure cfg duty s) as [[v' E] | [f E]];
      rewrite E in H; [injection H as _ <- _; exact IH | discriminate H].
  - apply (Hstep s); [|exact IH].
    pose proof (freewheeling_same_configuration cfg s) as Hs.
    rewrite H in Hs. exact Hs.
  - apply (Hstep s); [|exact IH].
    pose proof (emergency_same_configuration s) as Hs.
    rewrite H in Hs. exact Hs.
  - exact IH.
Qed.

Lemma reachable_configuration_witness :
  channels_enabled driven_state /\
  CCR1 (TIM3 driven_state) = 0 /\
  exists ticks,
    F32.to_uint16
      (nanosec_to_ticks_float (STM32_TIMCLK1 (example_config false))
         (MOTOR_ADC_SYNC_ADVANCE_NANOSEC (example_config false))) = Some ticks /\
    CCR4 (TIM4 driven_state) = CInt.to_uint16 (PWM_HALF_TOP - ticks).
Proof.
  apply (reachable_configuration (example_config false) driven_state).
  apply (reach_manip _ initialised_state 0 MOTOR_PWM_MANIP_HIGH _
           (trace_of (motor_pwm_manip (example_config false) 0
                        MOTOR_PWM_MANIP_HIGH initialised_state))).
  - initialised_reachable.
  - vm_compute. reflexivity.
Defined.

(** ** The ADC trigger advance at 72 MHz *)

Lemma Z_range_forallb f lo n a :
  forallb f (Z_range lo n) = true ->
  lo <= a < lo + n -> f a = true.
Proof.
  intros Hall Ha. rewrite forallb_forall in Hall. apply Hall.
  unfold Z_range. apply in_map_iff. exists (Z.to_nat (a - lo)).
  split; [lia|]. apply in_seq. lia.
Qed.

Lemma adc_advance_window :
  forallb adc_advance_as_expected (Z_range (-500) 5501) = true.
Proof. vm_compute. reflexivity. Qed.

Lemma init_timers_checks cfg s :
  (forall ticks,
      adc_advance_checks (STM32_TIMCLK1 cfg) (MOTOR_ADC_SYNC_ADVANCE_NANOSEC cfg)
      = true ->
      F32.to_uint16 (nanosec_to_ticks_float (STM32_TIMCLK1 cfg)
                       (MOTOR_ADC_SYNC_ADVANCE_NANOSEC cfg)) = Some ticks ->
      exists s1 tr1,
        init_timers cfg s = Ok tt s1 tr1 /\
        CCR4 (TIM4 s1) = CInt.to_uint16 (PWM_HALF_TOP - ticks)) /\
  (adc_advance_checks (STM32_TIMCLK1 cfg) (MOTOR_ADC_SYNC_ADVANCE_NANOSEC cfg)
   = false ->
   exists s1 tr1,
     init_timers cfg s = Err AssertionFailed s1 tr1 /\
     motor_pwm_init cfg s = Err AssertionFailed s1 tr1 /\
     limits s1 = limits s).
Proof.
  unfold adc_advance_checks, motor_pwm_init, init_timers, nanosec_to_ticks_float,
    PWM_TIMER_FREQUENCY.
  cbv zeta.
  set (x := F32.div _ (F32.div (F32.of_Z 1) _)).
  set (b1 := F32.geb x _). set (b2 := F32.ltb x _).
  set (o := F32.to_uint16 x).
  clearbody b1 b2 o. clear x.
  destruct_state s. split.
  - intros ticks Hb Ho. subst o.
    apply andb_prop in Hb. destruct Hb as [-> ->].
    do 2 eexists. split; [run_opaque; reflexivity | reflexivity].
  - intros Hb. apply andb_false_iff in Hb.
    destruct b1; [destruct Hb as [Hb | ->]; [discriminate|] |];
      do 2 eexists; (split; [run_opaque; reflexivity|]);
      (split; [run_opaque; reflexivity | reflexivity]).
Qed.

(** X14: at a 72 MHz timer clock the bring-up accepts exactly the ADC
    trigger advances of 0..4262 ns (among -500..5000 ns).  For an
    accepted advance it returns with [TIM4->CCR4] = half-top minus the
    advance in ticks, where the ticks are the exact product
    advance * 72 / 1000 truncated -- or one less when that product is an
    integer and the single-precision quotient falls just below it, as at
    625 ns (44 ticks, not 45).  For any other advance [init_timers], and
    with it [motor_pwm_init], stops at an assertion with the limits
    unassigned. *)
Theorem adc_trigger_advance_at_72MHz cfg s :
  STM32_TIMCLK1 cfg = 72000000 ->
  -500 <= MOTOR_ADC_SYNC_ADVANCE_NANOSEC cfg <= 5000 ->
  let adc := MOTOR_ADC_SYNC_ADVANCE_NANOSEC cfg in
  (0 <= adc <= 4262 ->
   exists s1 tr1 ticks,
     init_timers cfg s = Ok tt s1 tr1 /\
     CCR4 (TIM4 s1) = PWM_HALF_TOP - ticks /\
     adc * 72 / 1000 - 1 <= ticks <= adc * 72 / 1000 /\
     (adc * 72 mod 1000 <> 0 -> ticks = adc * 72 / 1000)) /\
  (adc < 0 \/ 4262 < adc ->
   exists s1 tr1,
     init_timers cfg s = Err AssertionFailed s1 tr1 /\
     motor_pwm_init cfg s = Err AssertionFailed s1 tr1 /\
     limits s1 = limits s) /\
  (adc = 625 ->
   exists s1 tr1,
     init_timers cfg s = Ok tt s1 tr1 /\ CCR4 (TIM4 s1) = PWM_HALF_TOP - 44).
Proof.
  intros Hf Hrange adc.
  pose proof (Z_range_forallb _ (-500) 5501 adc adc_advance_window) as Hw.
  assert (Hin : -500 <= adc < -500 + 5501) by (subst adc; lia).
  specialize (Hw Hin). unfold adc_advance_as_expected in Hw. cbv zeta in Hw.
  destruct (init_timers_checks cfg s) as [Hok Hfail].
  fold adc in Hok, Hfail. rewrite Hf in Hok, Hfail.
  assert (Haccept : 0 <= adc <= 4262 ->
            exists s1 tr1 ticks,
              init_timers cfg s = Ok tt s1 tr1 /\
              CCR4 (TIM4 s1) = PWM_HALF_TOP - ticks /\
              adc * 72 / 1000 - 1 <= ticks <= adc * 72 / 1000 /\
              (adc * 72 mod 1000 <> 0 -> ticks = adc * 72 / 1000)).
  { intros Ha.
    assert (G : (0 <=? adc) && (adc <=? 4262) = true)
      by (apply andb_true_iff; split; lia).
    rewrite G in Hw. apply andb_prop in Hw. destruct Hw as [Hchk Hcast].
    destruct (F32.to_uint16 (nanosec_to_ticks_float 72000000 adc))
      as [t|] eqn:Ht; [|discriminate].
    apply andb_prop in Hcast. destruct Hcast as [Hb Hex].
    apply andb_prop in Hb. destruct Hb as [Hlo Hhi].
    destruct (Hok t Hchk eq_refl) as (s1 & tr1 & E & H4).
    exists s1, tr1, t. split; [exact E|].
    assert (Hq : 0 <= adc * 72 / 1000 <= 306).
    { clear -Ha. Z.to_euclidean_division_equations. lia. }
    assert (Ht0 : 0 <= t).
    { revert Ht. unfold F32.to_uint16.
      destruct (F32.truncate _) as [z|]; [|discriminate].
      destruct ((0 <=? z) && (z <? 2 ^ 16)) eqn:Hz; [|discriminate].
      intros [= <-]. apply andb_prop in Hz. lia. }
    split.
    - rewrite H4. apply to_uint16_small. change PWM_HALF_TOP with 512. lia.
    - split; [lia|]. intros Hne.
      apply orb_prop in Hex. destruct Hex as [Hex | Hex]; lia. }
  split; [exact Haccept|]. split.
  - intros Ha.
    assert (G : (0 <=? adc) && (adc <=? 4262) = false).
    { apply andb_false_iff. destruct Ha; [left | right]; lia. }
    rewrite G in Hw. apply negb_true_iff in Hw. exact (Hfail Hw).
  - intros H625.
    destruct Haccept as (s1 & tr1 & t & E & H4 & Hb & _); [lia|].
    exists s1, tr1. split; [exact E|].
    assert (Hc : F32.to_uint16 (nanosec_to_ticks_float 72000000 625) = Some 44)
      by (vm_compute; reflexivity).
    destruct (Hok 44) as (s1' & tr1' & E' & H4').
    + rewrite H625. vm_compute. reflexivity.
    + rewrite H625. exact Hc.
    + rewrite E' in E. injection E as <- _. rewrite H4'. reflexivity.
Qed.

Lemma adc_trigger_advance_at_72MHz_witness :
  let adc := MOTOR_ADC_SYNC_ADVANCE_NANOSEC
               (mkConfig false 72000000 625 16 65535) in
  (0 <= adc <= 4262 ->
   exists s1 tr1 ticks,
     init_timers (mkConfig false 72000000 625 16 65535) power_on_state
     = Ok tt s1 tr1 /\
     CCR4 (TIM4 s1) = PWM_HALF_TOP - ticks /\
     adc * 72 / 1000 - 1 <= ticks <= adc * 72 / 1000 /\
     (adc * 72 mod 1000 <> 0 -> ticks = adc * 72 / 1000)) /\
  (adc < 0 \/ 4262 < adc ->
   exists s1 tr1,
     init_timers (mkConfig false 72000000 625 16 65535) power_on_state
     = Err AssertionFailed s1 tr1 /\
     motor_pwm_init (mkConfig false 72000000 625 16 65535) power_on_state
     = Err AssertionFailed s1 tr1 /\
     limits s1 = limits power_on_state) /\
  (adc = 625 ->
   exists s1 tr1,
     init_timers (mkConfig false 72000000 625 16 65535) power_on_state
     = Ok tt s1 tr1 /\ CCR4 (TIM4 s1) = PWM_HALF_TOP - 44).
Proof.
  apply (adc_trigger_advance_at_72MHz (mkConfig false 72000000 625 16 65535)
           power_on_state).
  - reflexivity.
  - cbn. lia.
Defined.

(** ** Sequencing runs *)

Lemma states_along_app tr1 : forall tr2 s,
  states_along s (tr1 ++ tr2)
  = states_along s tr1 ++ states_along (replay tr1 s) tr2.
Proof.
  induction tr1 as [|e tr1 IH]; intros tr2 s.
  - reflexivity.
  - cbn [app states_along]. rewrite IH, replay_cons. reflexivity.
Qed.

Lemma along_ret {A} (P Inv : state -> Prop) (a : A) : along P Inv P (ret a).
Proof.
  intros s Hs. split; [constructor|].
  intros a' s' tr H. injection H as _ <- _. exact Hs.
Qed.

Lemma along_bind {A B} (Pre Inv Mid Post : state -> Prop)
  (m : M A) (k : A -> M B) :
  hw_only m ->
  along Pre Inv Mid m ->
  (forall a, along Mid Inv Post (k a)) ->
  along Pre Inv Post (bind m k).
Proof.
  intros Hhw Hm Hk s Hs. unfold bind.
  destruct (Hm s Hs) as [Hinv Hpost].
  destruct (Hhw s) as [Hrep _].
  destruct (m s) as [a s1 tr1 | f s1 tr1]; cbn [state_of trace_of] in *.
  - destruct (Hk a s1 (Hpost a s1 tr1 eq_refl)) as [Hinv' Hpost'].
    destruct (k a s1) as [b s2 tr2 | f s2 tr2]; cbn [state_of trace_of] in *.
    + split.
      * rewrite states_along_app, <- Hrep. apply Forall_app. split; assumption.
      * intros b' s' tr H. injection H as _ <- _.
        exact (Hpost' b s2 tr2 eq_refl).
    + split; [|intros b' s' tr H; discriminate H].
      rewrite states_along_app, <- Hrep. apply Forall_app. split; assumption.
  - split; [exact Hinv | intros b' s' tr H; discriminate H].
Qed.

Lemma along_weaken {A} (Pre Pre' Inv Inv' Post Post' : state -> Prop) (m : M A) :
  along Pre Inv Post m ->
  (forall s, Pre' s -> Pre s) ->
  (forall s, Inv s -> Inv' s) ->
  (forall s, Post s -> Post' s) ->
  along Pre' Inv' Post' m.
Proof.
  intros Hm Hpre Hinv Hpost s Hs.
  destruct (Hm s (Hpre s Hs)) as [H1 H2]. split.
  - eapply Forall_impl; [exact Hinv | exact H1].
  - intros a s' tr H. apply Hpost. exact (H2 a s' tr H).
Qed.

(** ** The tone generator *)

(** From a state in which two phases have given outputs, an operation on
    the third keeps them so throughout. *)
Lemma manip_along_others cfg p q r command oq or :
  0 <= p <= 2 -> 0 <= q <= 2 -> 0 <= r <= 2 -> p <> q -> p <> r ->
  along (fun s => phase_output_of q s = oq /\ phase_output_of r s = or)
        (fun s => phase_output_of q s = oq /\ phase_output_of r s = or)
        (fun s => phase_output_of q s = oq /\ phase_output_of r s = or)
        (motor_pwm_manip cfg p command).
Proof.
  intros Hp Hq Hr Hpq Hpr s [Hsq Hsr].
  pose proof (manip_frame_along cfg s p q command Hp Hq Hpq) as Aq.
  pose proof (manip_frame_along cfg s p r command Hp Hr Hpr) as Ar.
  assert (Hall : Forall (fun x => phase_output_of q x = oq
                                  /\ phase_output_of r x = or)
                   (states_along s (trace_of (motor_pwm_manip cfg p command s)))).
  { rewrite Forall_forall in *. intros x Hx.
    rewrite (Aq x Hx), (Ar x Hx). split; assumption. }
  split; [exact Hall|].
  intros a s' tr H.
  destruct (hw_only_manip cfg p command s) as [Hrep _].
  rewrite H in Hrep, Hall. cbn [state_of trace_of] in Hrep, Hall.
  rewrite Hrep.
  apply (along_final (fun x => phase_output_of q x = oq
                               /\ phase_output_of r x = or));
    [split; assumption | exact Hall].
Qed.

(** The shutdown modes keep the high side of their phase off throughout,
    if it was off, and end as the mode says. *)
Lemma manip_shutdown_along cfg p command :
  0 <= p <= 2 ->
  command = MOTOR_PWM_MANIP_FLOATING \/ command = MOTOR_PWM_MANIP_LOW ->
  along (fun s => compare_high p s = Some 0 /\ high_inverted p s = Some false)
        (fun s => compare_high p s = Some 0 /\ high_inverted p s = Some false)
        (fun s => phase_output_of p s
                  = if manip_eqb command MOTOR_PWM_MANIP_LOW
                    then driven_low else floating)
        (motor_pwm_manip cfg p command).
Proof.
  intros Hp Hcmd s [Hh Hi].
  destruct cfg as [nd f adc res mx]. destruct_state s.
  phase_cases p; destruct Hcmd as [-> | ->];
    run_arith_in Hh; run_arith_in Hi;
    injection Hh as ->; injection Hi as Hi;
    rewrite ?(polarity_bit _ 1), ?(polarity_bit _ 5), ?(polarity_bit _ 9)
      in Hi by lia;
    (split;
     [ run; repeat constructor; bits; rewrite Hi; reflexivity
     | intros a s' tr; run; intros E; injection E as _ <- _; run; polarity ]).

Qed.

Lemma manip_shutdown_output cfg s p command :
  0 <= p <= 2 ->
  command = MOTOR_PWM_MANIP_FLOATING \/ command = MOTOR_PWM_MANIP_LOW ->
  exists s' tr,
    motor_pwm_manip cfg p command s = Ok tt s' tr /\
    phase_output_of p s'
    = (if manip_eqb command MOTOR_PWM_MANIP_LOW then driven_low else floating) /\
    primask s' = false.
Proof.
  intros Hp Hcmd. destruct cfg as [nd f adc res mx]. destruct_state s.
  phase_cases p; destruct Hcmd as [-> | ->]; do 2 eexists;
    (split; [run; reflexivity | split; [run; polarity | reflexivity]]).
Qed.

Lemma freewheeling_output cfg s :
  exists s' tr,
    motor_pwm_set_freewheeling cfg s = Ok tt s' tr /\
    phase_output_of 0 s' = floating /\
    phase_output_of 1 s' = floating /\
    phase_output_of 2 s' = floating /\
    primask s' = false.
Proof.
  destruct_state s. do 2 eexists.
  split; [run; reflexivity|].
  repeat split; run; polarity.
Qed.

Lemma along_conj {A} (P1 I1 Q1 P2 I2 Q2 : state -> Prop) (m : M A) :
  along P1 I1 Q1 m -> along P2 I2 Q2 m ->
  along (fun s => P1 s /\ P2 s) (fun s => I1 s /\ I2 s)
        (fun s => Q1 s /\ Q2 s) m.
Proof.
  intros H1 H2 s [Hs1 Hs2].
  destruct (H1 s Hs1) as [A1 B1]. destruct (H2 s Hs2) as [A2 B2]. split.
  - rewrite Forall_forall in *. intros x Hx. split; auto.
  - intros a s' tr H. split; eauto.
Qed.

(** A shutdown of one phase with the two others untouched. *)
Lemma manip_shutdown_others cfg p q r command oq or :
  0 <= p <= 2 -> 0 <= q <= 2 -> 0 <= r <= 2 -> p <> q -> p <> r ->
  command = MOTOR_PWM_MANIP_FLOATING \/ command = MOTOR_PWM_MANIP_LOW ->
  along (fun s => phase_output_of q s = oq /\ phase_output_of r s = or)
        (fun s => phase_output_of q s = oq /\ phase_output_of r s = or)
        (fun s => phase_output_of q s = oq /\ phase_output_of r s = or /\
                  phase_output_of p s
                  = if manip_eqb command MOTOR_PWM_MANIP_LOW
                    then driven_low else floating)
        (motor_pwm_manip cfg p command).
Proof.
  intros Hp Hq Hr Hpq Hpr Hcmd s Hs.
  destruct (manip_along_others cfg p q r command oq or Hp Hq Hr Hpq Hpr s Hs)
    as [Hall Hpost].
  split; [exact Hall|].
  intros a s' tr H. destruct (Hpost a s' tr H) as [H1 H2].
  split; [exact H1|]. split; [exact H2|].
  destruct (manip_shutdown_output cfg s p command Hp Hcmd)
    as (s1 & tr1 & E & Ho & _).
  rewrite E in H. injection H as _ <- _. exact Ho.
Qed.

Section BeepProperties.

Variable cfg : config.
Variable clock : nat -> Z.
Variable HNSEC_PER_MSEC : Z.

Lemma hw_only_udelay usec : hw_only (motor_timer_udelay usec).
Proof. apply hw_only_ret. Qed.

Lemma hw_only_beep_cycle h : hw_only (beep_cycle cfg h).
Proof.
  unfold beep_cycle.
  pose proof (hw_only_manip cfg) as Hm. pose proof hw_only_udelay as Hu.
  hw_steps.
Qed.

Lemma hw_only_beep_loop fuel : forall reading e h,
  hw_only (beep_loop cfg clock fuel reading e h).
Proof.
  induction fuel as [|fuel IH]; intros reading e h; cbn [beep_loop].
  - apply hw_only_ret.
  - destruct (e >? clock reading); [|apply hw_only_ret].
    apply hw_only_bind; [apply hw_only_beep_cycle | intros _; apply IH].
Qed.

Lemma beep_cycle_along h :
  along beep_idle beep_sounding beep_idle (beep_cycle cfg h).
Proof.
  unfold beep_cycle.
  pose proof (hw_only_manip cfg) as Hhw.
  (* phase 0 energised *)
  apply (along_bind _ _
           (fun s => phase_output_of 2 s = floating
                     /\ phase_output_of 1 s = driven_low));
    [apply Hhw | |intros _].
  { eapply along_weaken;
      [apply (manip_along_others cfg 0 2 1 MOTOR_PWM_MANIP_HIGH
                floating driven_low); lia | | |].
    - intros s (H0 & H2 & H1). split; assumption.
    - intros s [H2 H1]. split; [exact H1 | right; exact H2].
    - intros s H. exact H. }
  apply (along_bind _ _
           (fun s => phase_output_of 2 s = floating
                     /\ phase_output_of 1 s = driven_low));
    [apply hw_only_udelay | apply along_ret | intros _].
  (* phase 0 released *)
  apply (along_bind _ _ beep_idle); [apply Hhw | |intros _].
  { eapply along_weaken;
      [apply (manip_shutdown_others cfg 0 2 1 MOTOR_PWM_MANIP_FLOATING
                floating driven_low); try lia; left; reflexivity | | |].
    - intros s H. exact H.
    - intros s [H2 H1]. split; [exact H1 | right; exact H2].
    - intros s (H2 & H1 & H0). split; [exact H0 | split; assumption]. }
  apply (along_bind _ _ beep_idle);
    [apply hw_only_udelay | apply along_ret | intros _].
  (* phase 2 energised *)
  apply (along_bind _ _
           (fun s => phase_output_of 0 s = floating
                     /\ phase_output_of 1 s = driven_low));
    [apply Hhw | |intros _].
  { eapply along_weaken;
      [apply (manip_along_others cfg 2 0 1 MOTOR_PWM_MANIP_HIGH
                floating driven_low); lia | | |].
    - intros s (H0 & H2 & H1). split; assumption.
    - intros s [H0 H1]. split; [exact H1 | left; exact H0].
    - intros s H. exact H. }
  apply (along_bind _ _
           (fun s => phase_output_of 0 s = floating
                     /\ phase_output_of 1 s = driven_low));
    [apply hw_only_udelay | apply along_ret | intros _].
  (* phase 2 released *)
  apply (along_bind _ _ beep_idle); [apply Hhw | |intros _].
  { eapply along_weaken;
      [apply (manip_shutdown_others cfg 2 0 1 MOTOR_PWM_MANIP_FLOATING
                floating driven_low); try lia; left; reflexivity | | |].
    - intros s H. exact H.
    - intros s [H0 H1]. split; [exact H1 | left; exact H0].
    - intros s (H0 & H1 & H2). split; [exact H0 | split; assumption]. }
  apply along_ret.
Qed.

Lemma beep_loop_along fuel : forall reading e h,
  along beep_idle beep_sounding beep_idle (beep_loop cfg clock fuel reading e h).
Proof.
  induction fuel as [|fuel IH]; intros reading e h; cbn [beep_loop].
  - apply along_ret.
  - destruct (e >? clock reading); [|apply along_ret].
    apply (along_bind _ _ beep_idle);
      [apply hw_only_beep_cycle | apply beep_cycle_along | intros _; apply IH].
Qed.

End BeepProperties.

Section BeepTheorems.

Variable cfg : config.
Variable clock : nat -> Z.
Variable HNSEC_PER_MSEC : Z.

Lemma beep_sounding_safe s : beep_sounding s -> beep_safe s.
Proof.
  intros [H1 H02]. apply phase_output_fields in H1.
  destruct H1 as (Hh & _ & Hi & _). repeat split; assumption.
Qed.

(** The three shutdowns of [motor_pwm_set_freewheeling], from the state
    between two turns of the loop. *)
Lemma final_freewheeling_along :
  along beep_idle beep_safe (fun _ => True) (motor_pwm_set_freewheeling cfg).
Proof.
  change (motor_pwm_set_freewheeling cfg)
    with (bind (motor_pwm_manip cfg 0 MOTOR_PWM_MANIP_FLOATING) (fun _ =>
          bind (motor_pwm_manip cfg (0 + 1) MOTOR_PWM_MANIP_FLOATING) (fun _ =>
          bind (motor_pwm_manip cfg (0 + 1 + 1) MOTOR_PWM_MANIP_FLOATING) (fun _ =>
          ret tt)))).
  change (0 + 1 + 1) with 2. change (0 + 1) with 1.
  pose proof (hw_only_manip cfg) as Hhw.
  apply (along_bind _ _ beep_idle); [apply Hhw | |intros _].
  { eapply along_weaken;
      [apply (manip_shutdown_others cfg 0 2 1 MOTOR_PWM_MANIP_FLOATING
                floating driven_low); try lia; left; reflexivity | | |].
    - intros s (H0 & H2 & H1). split; assumption.
    - intros s [H2 H1]. apply beep_sounding_safe.
      split; [exact H1 | right; exact H2].
    - intros s (H2 & H1 & H0). split; [exact H0 | split; assumption]. }
  apply (along_bind _ _
           (fun s => phase_output_of 0 s = floating /\
                     phase_output_of 1 s = floating));
    [apply Hhw | |intros _].
  { eapply along_weaken;
      [apply (along_conj _ _ _ _ _ _ _
                (manip_shutdown_others cfg 1 0 2 MOTOR_PWM_MANIP_FLOATING
                   floating floating ltac:(lia) ltac:(lia) ltac:(lia)
                   ltac:(lia) ltac:(lia) (or_introl eq_refl))
                (manip_shutdown_along cfg 1 MOTOR_PWM_MANIP_FLOATING
                   ltac:(lia) (or_introl eq_refl))) | | |].
    - intros s (H0 & H2 & H1). apply phase_output_fields in H1.
      destruct H1 as (Hh & _ & Hi & _). repeat split; assumption.
    - intros s [[H0 H2] [Hh Hi]]. repeat split; try assumption.
      left; exact H0.
    - intros s [(H0 & H2 & H1) _]. split; assumption. }
  apply (along_bind _ _ (fun _ => True));
    [apply Hhw | |intros _; apply along_ret].
  eapply along_weaken;
    [apply (manip_along_others cfg 2 0 1 MOTOR_PWM_MANIP_FLOATING
              floating floating); lia | | |].
  - intros s H. exact H.
  - intros s [H0 H1]. apply phase_output_fields in H1.
    destruct H1 as (Hh & _ & Hi & _). repeat split; try assumption.
    left; exact H0.
  - intros s _. exact I.
Qed.

(** What follows the first [motor_pwm_set_freewheeling] in
    [motor_pwm_beep]: phase 1 is pulled low, then the loop and the last
    shutdown. *)
Lemma beep_after_idle_along fuel frequency duration_msec :
  along (fun s => phase_output_of 0 s = floating /\
                  phase_output_of 1 s = floating /\
                  phase_output_of 2 s = floating)
        beep_safe (fun _ => True)
    (bind (motor_pwm_manip cfg 1 MOTOR_PWM_MANIP_LOW) (fun _ =>
       if frequency =? 0 then ret BeepDivisionByZero
       else
         if negb (in_int (duration_msec * HNSEC_PER_MSEC))
         then ret BeepSignedOverflow
         else
           bind (beep_loop cfg clock fuel 1
                   (to_uint64 (clock 0%nat + duration_msec * HNSEC_PER_MSEC))
                   (Z.quot (Z.quot 1000000 frequency) 2))
             (fun finished =>
                if finished : bool
                then bind (motor_pwm_set_freewheeling cfg)
                       (fun _ => ret BeepDone)
                else ret BeepOutOfFuel))).
Proof.
  assert (Hret : forall r : beep_result,
             along beep_idle beep_safe (fun _ => True) (ret r)).
  { intros r. eapply along_weaken; [apply (along_ret beep_idle beep_safe) | | |];
      auto. }
  apply (along_bind _ _ beep_idle); [apply hw_only_manip | |intros _].
  { eapply along_weaken;
      [apply (along_conj _ _ _ _ _ _ _
                (manip_shutdown_others cfg 1 0 2 MOTOR_PWM_MANIP_LOW
                   floating floating ltac:(lia) ltac:(lia) ltac:(lia)
                   ltac:(lia) ltac:(lia) (or_intror eq_refl))
                (manip_shutdown_along cfg 1 MOTOR_PWM_MANIP_LOW
                   ltac:(lia) (or_intror eq_refl))) | | |].
    - intros s (H0 & H1 & H2). apply phase_output_fields in H1.
      destruct H1 as (Hh & _ & Hi & _). repeat split; assumption.
    - intros s [[H0 H2] [Hh Hi]]. repeat split; try assumption.
      left; exact H0.
    - intros s [(H0 & H2 & H1) _]. repeat split; assumption. }
  destruct (frequency =? 0); [apply Hret|].
  destruct (negb (in_int (duration_msec * HNSEC_PER_MSEC))); [apply Hret|].
  apply (along_bind _ _ beep_idle);
    [apply hw_only_beep_loop | |intros [|]; [|apply Hret]].
  { eapply along_weaken; [apply beep_loop_along | | |]; auto.
    apply beep_sounding_safe. }
  apply (along_bind _ _ (fun _ => True));
    [apply hw_only_freewheeling | apply final_freewheeling_along |intros _].
  apply along_ret.
Qed.


(** With the limits of a 72 MHz initialisation every mode of
    [motor_pwm_manip] returns. *)
Lemma manip_returns p command s :
  PWM_TRUE_RESOLUTION <= MOTOR_PWM_DUTY_CYCLE_RESOLUTION cfg
                      < PWM_TRUE_RESOLUTION + 32 ->
  CInt.to_uint16 (MOTOR_PWM_DUTY_CYCLE_MAX cfg)
  < 2 ^ MOTOR_PWM_DUTY_CYCLE_RESOLUTION cfg ->
  0 <= p <= 2 ->
  _pwm_max s = 1012 ->
  exists s' tr,
    motor_pwm_manip cfg p command s = Ok tt s' tr /\ _pwm_max s' = 1012.
Proof.
  intros Hres Hmaxcode Hp Hmax.
  assert (Hkeep : forall s' tr,
             motor_pwm_manip cfg p command s = Ok tt s' tr -> _pwm_max s' = 1012).
  { intros s' tr E.
    pose proof (hw_only_limits _ s (hw_only_manip cfg p command)) as [L _].
    rewrite E in L. cbn [state_of] in L. congruence. }
  assert (Hcmd : (command = MOTOR_PWM_MANIP_HIGH \/ command = MOTOR_PWM_MANIP_HALF)
                 \/ (command = MOTOR_PWM_MANIP_FLOATING
                     \/ command = MOTOR_PWM_MANIP_LOW)).
  { destruct command; auto. }
  destruct Hcmd as [Hcmd | Hcmd].
  - destruct (compute_pwm_val_run cfg s
                (CInt.to_uint16 (if manip_eqb command MOTOR_PWM_MANIP_HIGH
                                 then MOTOR_PWM_DUTY_CYCLE_MAX cfg else 0))
                Hmax Hres) as (n & Hc & _).
    { destruct (manip_eqb command MOTOR_PWM_MANIP_HIGH).
      - split; [apply to_uint16_range | exact Hmaxcode].
      - change (CInt.to_uint16 0) with 0.
        split; [lia | apply Z.pow_pos_nonneg; unfold PWM_TRUE_RESOLUTION in Hres; lia]. }
    destruct (manip_high_half_run cfg s p command n Hp Hcmd Hc)
      as (s2 & tr2 & _ & Em & _).
    do 2 eexists. split; [exact Em | exact (Hkeep _ _ Em)].
  - destruct (manip_shutdown_output cfg s p command Hp Hcmd)
      as (s' & tr & E & _).
    exists s', tr. split; [exact E | exact (Hkeep _ _ E)].
Qed.

Lemma beep_cycle_returns h s :
  PWM_TRUE_RESOLUTION <= MOTOR_PWM_DUTY_CYCLE_RESOLUTION cfg
                      < PWM_TRUE_RESOLUTION + 32 ->
  CInt.to_uint16 (MOTOR_PWM_DUTY_CYCLE_MAX cfg)
  < 2 ^ MOTOR_PWM_DUTY_CYCLE_RESOLUTION cfg ->
  _pwm_max s = 1012 ->
  exists s' tr, beep_cycle cfg h s = Ok tt s' tr /\ _pwm_max s' = 1012.
Proof.
  intros Hres Hmaxcode Hmax. unfold beep_cycle, motor_timer_udelay.
  destruct (manip_returns 0 MOTOR_PWM_MANIP_HIGH s Hres Hmaxcode ltac:(lia) Hmax)
    as (s1 & tr1 & E1 & M1).
  destruct (manip_returns 0 MOTOR_PWM_MANIP_FLOATING s1 Hres Hmaxcode
              ltac:(lia) M1) as (s2 & tr2 & E2 & M2).
  destruct (manip_returns 2 MOTOR_PWM_MANIP_HIGH s2 Hres Hmaxcode ltac:(lia) M2)
    as (s3 & tr3 & E3 & M3).
  destruct (manip_returns 2 MOTOR_PWM_MANIP_FLOATING s3 Hres Hmaxcode
              ltac:(lia) M3) as (s4 & tr4 & E4 & M4).
  rewrite (bind_Ok _ _ _ _ _ _ E1). unfold bind at 1, ret at 1.
  rewrite (bind_Ok _ _ _ _ _ _ E2). unfold bind at 1, ret at 1.
  rewrite (bind_Ok _ _ _ _ _ _ E3). unfold bind at 1, ret at 1.
  rewrite (bind_Ok _ _ _ _ _ _ E4). unfold ret.
  do 2 eexists. split; [reflexivity | exact M4].
Qed.

(** The loop ends by its condition when the clock reaches the deadline
    within the turns allowed. *)
Lemma beep_loop_returns e h : forall fuel n reading s,
  PWM_TRUE_RESOLUTION <= MOTOR_PWM_DUTY_CYCLE_RESOLUTION cfg
                      < PWM_TRUE_RESOLUTION + 32 ->
  CInt.to_uint16 (MOTOR_PWM_DUTY_CYCLE_MAX cfg)
  < 2 ^ MOTOR_PWM_DUTY_CYCLE_RESOLUTION cfg ->
  _pwm_max s = 1012 ->
  (n < fuel)%nat ->
  e <= clock (reading + n)%nat ->
  exists s' tr, beep_loop cfg clock fuel reading e h s = Ok true s' tr.
Proof.
  induction fuel as [|fuel IH]; intros n reading s Hres Hmaxcode Hmax Hn He;
    [lia|].
  cbn [beep_loop].
  destruct (e >? clock reading) eqn:Hgt.
  - destruct n as [|n].
    + rewrite Nat.add_0_r in He. lia.
    + destruct (beep_cycle_returns h s Hres Hmaxcode Hmax)
        as (s1 & tr1 & E1 & M1).
      rewrite (bind_Ok _ _ _ _ _ _ E1).
      destruct (IH n (S reading) s1 Hres Hmaxcode M1 ltac:(lia))
        as (s2 & tr2 & E2).
      { replace (S reading + n)%nat with (reading + S n)%nat by lia. exact He. }
      rewrite E2. do 2 eexists. reflexivity.
  - do 2 eexists. reflexivity.
Qed.

(** X16: in a module initialised at 72 MHz with a valid resolution and
    maximum duty code, for a frequency other than zero and a duration
    whose tick count fits an [int], the tone generator returns once a
    reading of the clock has reached the deadline, and it leaves all
    three phases floating with interrupts enabled. *)
Theorem beep_returns_floating fuel frequency duration_msec s n :
  STM32_TIMCLK1 cfg = 72000000 ->
  reachable cfg s ->
  PWM_TRUE_RESOLUTION <= MOTOR_PWM_DUTY_CYCLE_RESOLUTION cfg
                      < PWM_TRUE_RESOLUTION + 32 ->
  CInt.to_uint16 (MOTOR_PWM_DUTY_CYCLE_MAX cfg)
  < 2 ^ MOTOR_PWM_DUTY_CYCLE_RESOLUTION cfg ->
  frequency <> 0 ->
  - 2 ^ 31 <= duration_msec * HNSEC_PER_MSEC < 2 ^ 31 ->
  (n < fuel)%nat ->
  to_uint64 (clock 0%nat + duration_msec * HNSEC_PER_MSEC) <= clock (S n) ->
  exists s' tr,
    motor_pwm_beep cfg clock HNSEC_PER_MSEC fuel frequency duration_msec s
    = Ok BeepDone s' tr /\
    phase_output_of 0 s' = floating /\
    phase_output_of 1 s' = floating /\
    phase_output_of 2 s' = floating /\
    primask s' = false.
Proof.
  intros Hf Hr Hres Hmaxcode Hfreq Hint Hn Hclock.
  destruct (reachable_limits cfg s Hf Hr) as [Hmax _].
  destruct (freewheeling_output cfg s) as (s1 & tr1 & E1 & _).
  assert (M1 : _pwm_max s1 = 1012).
  { pose proof (hw_only_limits _ s (hw_only_freewheeling cfg)) as [L _].
    rewrite E1 in L. cbn [state_of] in L. congruence. }
  destruct (manip_returns 1 MOTOR_PWM_MANIP_LOW s1 Hres Hmaxcode ltac:(lia) M1)
    as (s2 & tr2 & E2 & M2).
  destruct (beep_loop_returns
              (to_uint64 (clock 0%nat + duration_msec * HNSEC_PER_MSEC))
              (Z.quot (Z.quot 1000000 frequency) 2)
              fuel n 1%nat s2 Hres Hmaxcode M2 Hn Hclock) as (s3 & tr3 & E3).
  destruct (freewheeling_output cfg s3) as (s4 & tr4 & E4 & Ho).
  exists s4. eexists. split; [|exact Ho].
  unfold motor_pwm_beep.
  rewrite (bind_Ok _ _ _ _ _ _ E1), (bind_Ok _ _ _ _ _ _ E2).
  apply Z.eqb_neq in Hfreq. rewrite Hfreq. cbv zeta.
  assert (G : in_int (duration_msec * HNSEC_PER_MSEC) = true).
  { unfold in_int. apply andb_true_iff. split; lia. }
  rewrite G. cbn [negb].
  rewrite (bind_Ok _ _ _ _ _ _ E3), (bind_Ok _ _ _ _ _ _ E4).
  reflexivity.
Qed.

End BeepTheorems.

Lemma beep_returns_floating_witness :
  exists s' tr,
    motor_pwm_beep (example_config false) (fun k => Z.of_nat k * 5000) 10000
      2 1000 1 initialised_state
    = Ok BeepDone s' tr /\
    phase_output_of 0 s' = floating /\
    phase_output_of 1 s' = floating /\
    phase_output_of 2 s' = floating /\
    primask s' = false.
Proof.
  apply (beep_returns_floating (example_config false)
           (fun k => Z.of_nat k * 5000) 10000 2 1000 1 initialised_state 1).
  - reflexivity.
  - initialised_reachable.
  - vm_compute. split; [discriminate | reflexivity].
  - vm_compute. reflexivity.
  - discriminate.
  - vm_compute. split; [discriminate | reflexivity].
  - lia.
  - vm_compute. discriminate.
Defined.

(** ** Arguments out of range *)

Lemma index_out_of_range {A} (tbl : list A) i :
  i < 0 \/ Z.of_nat (length tbl) <= i -> index tbl i = None.
Proof.
  intros H. unfold index. destruct (i <? 0) eqn:E; [reflexivity|].
  apply nth_error_None. lia.
Qed.



(** ** The commutation table *)

(** X18: the table describes a six-step commutation. Every step gives
    the three roles to three different phases; the next step (cyclically)
    moves the floating role and keeps exactly one of the driven phases
    in its role; the step three further swaps the positive and the
    negative phase and leaves the floating one. *)
Theorem commutation_table_six_step i :
  0 <= i < 6 ->
  exists c next opposite,
    index Commutation.COMMUTATION_TABLE i = Some c /\
    index Commutation.COMMUTATION_TABLE ((i + 1) mod 6) = Some next /\
    index Commutation.COMMUTATION_TABLE ((i + 3) mod 6) = Some opposite /\
    NoDup (Commutation.roles c) /\
    Forall (fun p => 0 <= p <= 2) (Commutation.roles c) /\
    Commutation.roles_changed c next = 2%nat /\
    Commutation.floating next <> Commutation.floating c /\
    Commutation.positive opposite = Commutation.negative c /\
    Commutation.negative opposite = Commutation.positive c /\
    Commutation.floating opposite = Commutation.floating c.
Proof.
  intros Hi.
  assert (H : i = 0 \/ i = 1 \/ i = 2 \/ i = 3 \/ i = 4 \/ i = 5) by lia.
  destruct H as [-> | [-> | [-> | [-> | [-> | ->]]]]];
    do 3 eexists;
    (split; [reflexivity|]); (split; [reflexivity|]); (split; [reflexivity|]);
    cbn; unfold Commutation.roles; cbn;
    (split; [repeat (apply NoDup_cons; [cbn; intuition discriminate|]);
             apply NoDup_nil|]);
    (split; [repeat constructor; lia|]);
    repeat split; first [reflexivity | discriminate].
Qed.

Lemma commutation_table_six_step_witness :
  exists c next opposite,
    index Commutation.COMMUTATION_TABLE 5 = Some c /\
    index Commutation.COMMUTATION_TABLE ((5 + 1) mod 6) = Some next /\
    index Commutation.COMMUTATION_TABLE ((5 + 3) mod 6) = Some opposite /\
    NoDup (Commutation.roles c) /\
    Forall (fun p => 0 <= p <= 2) (Commutation.roles c) /\
    Commutation.roles_changed c next = 2%nat /\
    Commutation.floating next <> Commutation.floating c /\
    Commutation.positive opposite = Commutation.negative c /\
    Commutation.negative opposite = Commutation.positive c /\
    Commutation.floating opposite = Commutation.floating c.
Proof.
  apply (commutation_table_six_step 5). lia.
Defined.
